(** * telegram_diffusers_bot: admission control, job registry and backends

    A shallow embedding of [src/bot/queue.py], [src/bot/handlers.py],
    [src/bot/diffusion.py] and [src/bot/llm.py].

    - Python [str] values are sequences of Unicode code points.
    - The module-level dictionaries ([_user_semaphores], [user_tasks]) are
      finite maps; the asyncio tasks live in a task table indexed by task id.
    - An [asyncio.Semaphore] is its counter: [acquire] can complete only when
      the counter is positive and decrements it, [release] increments it.
    - A coroutine is cut at its [await]s: the event loop resumes one task at
      a time, and the code between two [await]s runs without interleaving.
      Every call of [_run_generation_task] runs in an asyncio task of its
      own, and the tasks interleave at their [await]s in any order.
    - The order in which a semaphore serves its waiters is left open: any
      task suspended in [acquire] may go on once the counter is positive.
      Every schedule of the event loop is a schedule here, so what holds in
      all states reached here holds in all states of the process; which
      waiter a [release] wakes is not stated anywhere.
    - [CancelledError] comes from [cancel_handler] only ([task.cancel()] on
      the registered task); it is thrown at the [await] where the task is
      suspended when the task is next resumed. *)

From Stdlib Require Import ZArith NArith List String Ascii Bool Lia.
From stdpp Require Import base option list gmap.

Local Open Scope nat_scope.

(** ** Python strings *)

Module pystr.

(** A [str] is a list of code points. *)
Definition str := list N.

(** The code points of an ASCII literal. *)
Fixpoint lit (s : string) : str :=
  match s with
  | EmptyString => []
  | String a r => N_of_ascii a :: lit r
  end.

(** [str.isspace] on one code point (CPython's [_PyUnicode_IsWhitespace]). *)
Definition isspace (c : N) : bool :=
  ((9 <=? c) && (c <=? 13) || (28 <=? c) && (c <=? 32)
   || (c =? 133) || (c =? 160) || (c =? 5760)
   || (8192 <=? c) && (c <=? 8202)
   || (c =? 8232) || (c =? 8233) || (c =? 8239) || (c =? 8287)
   || (c =? 12288))%N.

Fixpoint lstrip (s : str) : str :=
  match s with
  | [] => []
  | c :: r => if isspace c then lstrip r else s
  end.

Definition rstrip (s : str) : str := rev (lstrip (rev s)).

(** [s.strip()] with no argument. *)
Definition strip (s : str) : str := rstrip (lstrip s).

(** [s.startswith(c)] and [s.endswith(c)] for a one-character [c]. *)
Definition startswith (s : str) (c : N) : bool :=
  match s with
  | x :: _ => (x =? c)%N
  | [] => false
  end.

Definition endswith (s : str) (c : N) : bool := startswith (rev s) c.

(** A string with no white space at either end. *)
Definition trimmed (s : str) : Prop :=
  match s with
  | [] => True
  | c :: _ => isspace c = false /\ isspace (List.last s c) = false
  end.

End pystr.

Import pystr.

(** What a call that may raise gives back: a value or the text of the
    exception ([str(exc)]). *)
Inductive result (A : Type) : Type :=
| Ok (a : A)
| Raise (e : str).
Arguments Ok {A} a.
Arguments Raise {A} e.

(** ** [src/bot/llm.py] *)

Module llm.

(** The client, when there is one, is what the chat completion request
    answers for a given message content: the content of the first choice,
    or an exception. *)
Definition Client := str -> result str.

(** [generate_prompt_from_idea(idea_text)], with the module-level
    [_client] as an argument ([None] when no API key is set). *)
Definition generate_prompt_from_idea (_client : option Client) (idea_text : str)
  : result str :=
  match _client with
  | None => Ok (strip idea_text)
  | Some call_llm =>
      match call_llm idea_text with
      | Ok content => Ok (strip content)
      | Raise e => Raise e
      end
  end.

End llm.

(** ** [src/bot/diffusion.py] *)

Module diffusion.

Inductive Device := cuda | cpu.
Inductive DType := float16 | float32.

(** The pipeline object. Its configuration is what the module sets on it:
    device, dtype, attention slicing, and the checkpoint files handed to
    [load_lora_weights] so far, oldest first. Nothing in the module removes
    a file from that list. *)
Record Pipeline := {
  device : Device;
  torch_dtype : DType;
  attention_slicing : bool;
  lora_weights : list str
}.

(** One invocation [pipeline(prompt, height=.., width=.., ...)], with the
    configuration the pipeline object has at that moment. *)
Record PipelineCall := {
  call_prompt : str;
  call_height : Z;
  call_width : Z;
  call_num_inference_steps : Z;
  call_seed : Z;
  call_pipeline : Pipeline
}.

(** An image is an opaque payload. *)
Definition Image := N.

(** What the module finds outside itself. *)
Record World := {
  (** [torch.cuda.is_available()] *)
  cuda_is_available : bool;
  (** [os.path.dirname(__file__)] *)
  module_dir : str;
  (** [os.path.isfile] *)
  isfile : str -> bool;
  (** the exception of [from_pretrained], if it raises *)
  from_pretrained_exc : option str;
  (** the exception of [pipeline.to(device)], if it raises *)
  to_exc : Device -> option str;
  (** the exception of [pipeline.enable_attention_slicing()], if it raises *)
  enable_attention_slicing_exc : option str;
  (** the exception of [pipeline.load_lora_weights(path)], if it raises *)
  load_lora_exc : Pipeline -> str -> option str;
  (** the first image of the pipeline's output, or its exception *)
  pipeline_output : PipelineCall -> result Image
}.

(** Module state: the cached [_pipeline], what was printed, and the
    invocations of the pipeline made so far. *)
Record State := {
  _pipeline : option Pipeline;
  stdout : list str;
  calls : list PipelineCall
}.

Definition init : State := {| _pipeline := None; stdout := []; calls := [] |}.

(** [os.path.join(a, b)] (posixpath). *)
Definition os_path_join (a b : str) : str :=
  if startswith b 47%N then b
  else if match a with [] => true | _ => endswith a 47%N end then a ++ b
  else a ++ 47%N :: b.

Section WithWorld.
Variable w : World.

(** [os.path.join(os.path.dirname(__file__), "..", "loras")] *)
Definition loras_dir : str :=
  os_path_join (os_path_join (module_dir w) (lit "..")) (lit "loras").

(** A named asset is located when its file exists under [loras_dir]. *)
Definition located (name : str) : bool :=
  isfile w (os_path_join loras_dir name).

(** The module state with [_pipeline] bound to [p]. *)
Definition bind_pipeline (p : Pipeline) (st : State) : State :=
  {| _pipeline := Some p; stdout := stdout st; calls := calls st |}.

(** [_load_pipeline()]. The global [_pipeline] is bound three times in a
    row: to what [from_pretrained] returns (a pipeline of the requested
    dtype, on the CPU, without attention slicing), to what [.to(device)]
    returns, and that object is then changed by
    [enable_attention_slicing()] on CUDA. A call that raises leaves the
    function at once, with [_pipeline] bound to the object as it was
    before that call. *)
Definition _load_pipeline (st : State) : State * result Pipeline :=
  match _pipeline st with
  | Some p => (st, Ok p)
  | None =>
      let dev := if cuda_is_available w then cuda else cpu in
      let dtype := match dev with cuda => float16 | cpu => float32 end in
      match from_pretrained_exc w with
      | Some e => (st, Raise e)
      | None =>
          let p0 := {| device := cpu; torch_dtype := dtype;
                       attention_slicing := false; lora_weights := [] |} in
          match to_exc w dev with
          | Some e => (bind_pipeline p0 st, Raise e)
          | None =>
              let p1 := {| device := dev; torch_dtype := dtype;
                           attention_slicing := false; lora_weights := [] |} in
              match dev with
              | cpu => (bind_pipeline p1 st, Ok p1)
              | cuda =>
                  match enable_attention_slicing_exc w with
                  | Some e => (bind_pipeline p1 st, Raise e)
                  | None =>
                      let p2 := {| device := dev; torch_dtype := dtype;
                                   attention_slicing := true;
                                   lora_weights := [] |} in
                      (bind_pipeline p2 st, Ok p2)
                  end
              end
          end
      end
  end.

(** Nothing raises in a first load: neither [from_pretrained], nor
    [.to(device)], nor, on CUDA, [enable_attention_slicing()]. *)
Definition loads : Prop :=
  from_pretrained_exc w = None
  /\ to_exc w (if cuda_is_available w then cuda else cpu) = None
  /\ (cuda_is_available w = true -> enable_attention_slicing_exc w = None).

Definition load_lora_weights (p : Pipeline) (lora_path : str)
  : result Pipeline :=
  match load_lora_exc w p lora_path with
  | Some e => Raise e
  | None =>
      Ok {| device := device p; torch_dtype := torch_dtype p;
            attention_slicing := attention_slicing p;
            lora_weights := lora_weights p ++ [lora_path] |}
  end.

(** The [for name in lora_names] loop: the pipeline so far, the lines
    printed so far, the names left. *)
Fixpoint _apply_loras_loop (p : Pipeline) (out : list str)
    (lora_names : list str) : Pipeline * list str :=
  match lora_names with
  | [] => (p, out)
  | name :: rest =>
      let lora_path := os_path_join loras_dir name in
      if negb (isfile w lora_path) then _apply_loras_loop p out rest
      else
        match load_lora_weights p lora_path with
        | Ok p' => _apply_loras_loop p' out rest
        | Raise exc =>
            _apply_loras_loop p
              (out ++ [lit "[diffusion] Failed to load LoRA '" ++ name
                         ++ lit "': " ++ exc])
              rest
        end
  end.

(** [_apply_loras(pipeline, lora_names)]: the pipeline object after the
    call and the lines it printed. *)
Definition _apply_loras (p : Pipeline) (lora_names : list str)
  : Pipeline * list str :=
  match lora_names with
  | [] => (p, [])
  | _ => _apply_loras_loop p [] lora_names
  end.

(** [generate_image(prompt, size, steps, lora_names)]: the body of [_run],
    with the number drawn by [random.randint] as [seed]. The pipeline
    that [_apply_loras] changes is the cached object itself. *)
Definition generate_image (st : State) (prompt : str) (size : Z * Z)
    (steps : Z) (lora_names : option (list str)) (seed : Z)
  : State * result Image :=
  let lora_names := match lora_names with None => [] | Some l => l end in
  match _load_pipeline st with
  | (st1, Raise e) => (st1, Raise e)
  | (st1, Ok pipeline) =>
      let '(pipeline', printed) := _apply_loras pipeline lora_names in
      let call := {| call_prompt := prompt;
                     call_height := fst size;
                     call_width := snd size;
                     call_num_inference_steps := steps;
                     call_seed := seed;
                     call_pipeline := pipeline' |} in
      ({| _pipeline := Some pipeline';
          stdout := stdout st1 ++ printed;
          calls := calls st1 ++ [call] |},
       pipeline_output w call)
  end.

(** One request to the backend, and a sequence of requests served one
    after the other by the same process. *)
Record Request := {
  req_prompt : str;
  req_size : Z * Z;
  req_steps : Z;
  req_lora_names : option (list str);
  req_seed : Z
}.

Definition serve (st : State) (r : Request) : State * result Image :=
  generate_image st (req_prompt r) (req_size r) (req_steps r)
    (req_lora_names r) (req_seed r).

Fixpoint serve_all (st : State) (rs : list Request) : State :=
  match rs with
  | [] => st
  | r :: rest => serve_all (fst (serve st r)) rest
  end.

End WithWorld.

End diffusion.

(** ** [src/bot/queue.py] *)

Module queue.

Definition MAX_GLOBAL_CONCURRENT : nat := 5.
Definition MAX_PER_USER : nat := 3.

(** [asyncio.Semaphore]: the counter after [acquire], when [acquire] can
    complete; with the counter at zero the caller stays suspended. *)
Definition sem_acquire (value : nat) : option nat :=
  match value with
  | 0 => None
  | S v => Some v
  end.

(** [asyncio.Semaphore.release]: the counter has no upper bound. *)
Definition sem_release (value : nat) : nat := S value.

(** The module's objects: the counter of [global_semaphore], the counters
    of the semaphores in [_user_semaphores], and [user_tasks] (requester to
    task id). *)
Record Store := {
  global_semaphore : nat;
  _user_semaphores : gmap Z nat;
  user_tasks : gmap Z nat
}.

Definition init : Store :=
  {| global_semaphore := MAX_GLOBAL_CONCURRENT;
     _user_semaphores := ∅;
     user_tasks := ∅ |}.

(** [get_user_semaphore(user_id)]: creates the semaphore on first use; the
    semaphore returned is the one stored under [user_id]. *)
Definition get_user_semaphore (user_id : Z) (q : Store) : Store :=
  match _user_semaphores q !! user_id with
  | Some _ => q
  | None =>
      {| global_semaphore := global_semaphore q;
         _user_semaphores := <[user_id := MAX_PER_USER]> (_user_semaphores q);
         user_tasks := user_tasks q |}
  end.

(** The counter of the semaphore [get_user_semaphore(user_id)] would return. *)
Definition user_semaphore_value (q : Store) (user_id : Z) : nat :=
  default MAX_PER_USER (_user_semaphores q !! user_id).

End queue.

(** ** [src/bot/handlers.py] *)

Module handlers.

Import queue.

(** The arguments of one [_run_generation_task] call. *)
Record Job := {
  prompt : str;
  loras : list str;
  size : Z * Z;
  steps : Z
}.

(** The texts the handlers send. *)
Inductive Text :=
| TGenerating            (** "Generating image..." *)
| TGenerated             (** "Image generated." *)
| TFailed (exc : str)    (** "Generation failed: {exc}" *)
| TCancelled             (** "Generation cancelled." *)
| TNoActive.             (** "No active generation to cancel." *)

(** What the orchestrator does that can be seen from outside, in the order
    in which it does it. *)
Inductive Event :=
| EvSubmit (t : nat) (u : Z)
| EvAcquireGlobal (t : nat)
| EvAcquireUser (t : nat) (u : Z)
| EvRegister (t : nat) (u : Z)
| EvSendMessage (t : nat) (text : Text)
| EvGenerateImage (t : nat) (j : Job)
| EvSendDocument (t : nat)
| EvEditText (t : nat) (text : Text)
| EvLogException (t : nat) (exc : str)
| EvReleaseUser (t : nat) (u : Z)
| EvReleaseGlobal (t : nat)
| EvPop (t : nat) (u : Z)
| EvTaskCancel (u : Z) (t : nat)
| EvReply (u : Z) (text : Text).

(** How a task's coroutine ended. *)
Inductive Outcome :=
| Returned
| Raised (exc : str)
| Cancelled.

(** Where a [_run_generation_task] coroutine is suspended. *)
Inductive PC :=
| AwaitGlobal                 (** [await global_semaphore.acquire()] *)
| AwaitUser                   (** [await user_sem.acquire()] *)
| AwaitProgress               (** [await _send_progress_message(..)], before [try] *)
| AwaitGenerate               (** [await generate_image(..)] *)
| AwaitSendDocument           (** [await context.bot.send_document(..)] *)
| AwaitEditOk                 (** [await progress_msg.edit_text(..)] in [try] *)
| AwaitEditFail (exc : str)   (** [await progress_msg.edit_text(..)] in [except] *)
| Finished (o : Outcome).

Record Task := {
  user_id : Z;
  job : Job;
  pc : PC;
  (** [task.cancel()] was called and [CancelledError] is still to be thrown *)
  must_cancel : bool
}.

Record State := {
  q : Store;
  tasks : list Task;
  log : list Event
}.

Definition init : State := {| q := queue.init; tasks := []; log := [] |}.

(** How the awaited call ended when the event loop resumes a task. An
    exception stands for any [Exception] raised before the next [await]. *)
Inductive Wakeup :=
| Completed
| Failed (exc : str).

(** What the coroutine receives at its [await]. *)
Inductive Input :=
| InOk
| InExc (exc : str)
| InCancelled.

Definition input_of (tk : Task) (r : Wakeup) : Input :=
  if must_cancel tk then InCancelled
  else match r with
       | Completed => InOk
       | Failed e => InExc e
       end.

(** [task.done()] *)
Definition done (tk : Task) : bool :=
  match pc tk with
  | Finished _ => true
  | _ => false
  end.

(** Between the return of [_acquire_semaphores] and the end of the
    coroutine: the job is admitted. *)
Definition admitted (tk : Task) : bool :=
  match pc tk with
  | AwaitProgress | AwaitGenerate | AwaitSendDocument
  | AwaitEditOk | AwaitEditFail _ => true
  | _ => false
  end.

(** Holding a ticket of the global semaphore. *)
Definition holds_global (tk : Task) : bool :=
  match pc tk with
  | AwaitUser => true
  | _ => admitted tk
  end.

(** Inside the [try] statement (its body or its [except] clause). *)
Definition in_try (tk : Task) : bool :=
  match pc tk with
  | AwaitGenerate | AwaitSendDocument | AwaitEditOk | AwaitEditFail _ => true
  | _ => false
  end.

Definition emit (e : Event) (s : State) : State :=
  {| q := q s; tasks := tasks s; log := log s ++ [e] |}.

Definition with_q (f : Store -> Store) (s : State) : State :=
  {| q := f (q s); tasks := tasks s; log := log s |}.

Definition at_pc (tk : Task) (p : PC) : Task :=
  {| user_id := user_id tk; job := job tk; pc := p; must_cancel := false |}.

Definition goto (t : nat) (tk : Task) (p : PC) (s : State) : State :=
  {| q := q s; tasks := <[t := at_pc tk p]> (tasks s); log := log s |}.

Definition set_global (v : nat) (st : Store) : Store :=
  {| global_semaphore := v;
     _user_semaphores := _user_semaphores st;
     user_tasks := user_tasks st |}.

Definition release_global (st : Store) : Store :=
  set_global (sem_release (global_semaphore st)) st.

Definition set_user (u : Z) (v : nat) (st : Store) : Store :=
  {| global_semaphore := global_semaphore st;
     _user_semaphores := <[u := v]> (_user_semaphores st);
     user_tasks := user_tasks st |}.

Definition release_user (u : Z) (st : Store) : Store :=
  {| global_semaphore := global_semaphore st;
     _user_semaphores := alter sem_release u (_user_semaphores st);
     user_tasks := user_tasks st |}.

(** [user_tasks[user_id] = current_task] *)
Definition register (u : Z) (t : nat) (st : Store) : Store :=
  {| global_semaphore := global_semaphore st;
     _user_semaphores := _user_semaphores st;
     user_tasks := <[u := t]> (user_tasks st) |}.

(** [user_tasks.pop(user_id, None)] *)
Definition pop (u : Z) (st : Store) : Store :=
  {| global_semaphore := global_semaphore st;
     _user_semaphores := _user_semaphores st;
     user_tasks := delete u (user_tasks st) |}.

(** [_release_semaphores(global_sem, user_sem)] as called by task [t] of
    requester [u]. *)
Definition _release_semaphores (t : nat) (u : Z) (s : State) : State :=
  emit (EvReleaseGlobal t) (with_q release_global
    (emit (EvReleaseUser t u) (with_q (release_user u) s))).

(** The [finally] clause of [_run_generation_task]. *)
Definition finally (t : nat) (u : Z) (s : State) : State :=
  emit (EvPop t u) (with_q (pop u) (_release_semaphores t u s)).

(** [_run_generation_task], one segment: task [t], suspended at [pc tk],
    receives [inp] and runs to its next [await] or to its end. [None]: the
    awaited call cannot end that way in the state [s]. *)
Definition _run_generation_task (t : nat) (tk : Task) (inp : Input) (s : State)
  : option State :=
  let u := user_id tk in
  match pc tk, inp with
  (* _acquire_semaphores *)
  | AwaitGlobal, InOk =>
      match sem_acquire (global_semaphore (q s)) with
      | None => None
      | Some v =>
          Some (goto t tk AwaitUser
                  (with_q (get_user_semaphore u)
                     (emit (EvAcquireGlobal t) (with_q (set_global v) s))))
      end
  | AwaitUser, InOk =>
      match _user_semaphores (q s) !! u with
      | None => None
      | Some value =>
          match sem_acquire value with
          | None => None
          | Some v =>
              Some (goto t tk AwaitProgress
                      (emit (EvRegister t u) (with_q (register u t)
                         (emit (EvAcquireUser t u) (with_q (set_user u v) s)))))
          end
      end
  | AwaitGlobal, InExc _ | AwaitUser, InExc _ => None
  | AwaitGlobal, InCancelled | AwaitUser, InCancelled =>
      Some (goto t tk (Finished Cancelled) s)
  (* the placeholder message, sent before the try statement *)
  | AwaitProgress, InOk =>
      Some (goto t tk AwaitGenerate
              (emit (EvGenerateImage t (job tk))
                 (emit (EvSendMessage t TGenerating) s)))
  | AwaitProgress, InExc e => Some (goto t tk (Finished (Raised e)) s)
  | AwaitProgress, InCancelled => Some (goto t tk (Finished Cancelled) s)
  (* try *)
  | AwaitGenerate, InOk => Some (goto t tk AwaitSendDocument s)
  | AwaitSendDocument, InOk =>
      Some (goto t tk AwaitEditOk (emit (EvSendDocument t) s))
  | AwaitEditOk, InOk =>
      Some (goto t tk (Finished Returned)
              (finally t u (emit (EvEditText t TGenerated) s)))
  (* except Exception as exc *)
  | AwaitGenerate, InExc e | AwaitSendDocument, InExc e | AwaitEditOk, InExc e =>
      Some (goto t tk (AwaitEditFail e) (emit (EvLogException t e) s))
  | AwaitEditFail e, InOk =>
      Some (goto t tk (Finished Returned)
              (finally t u (emit (EvEditText t (TFailed e)) s)))
  | AwaitEditFail _, InExc e' =>
      Some (goto t tk (Finished (Raised e')) (finally t u s))
  (* CancelledError is not an Exception: only the finally clause runs *)
  | AwaitGenerate, InCancelled | AwaitSendDocument, InCancelled
  | AwaitEditOk, InCancelled | AwaitEditFail _, InCancelled =>
      Some (goto t tk (Finished Cancelled) (finally t u s))
  | Finished _, _ => None
  end.

(** The task [cancel_handler] calls [cancel()] on: the registered task of
    the requester, when there is one and it is not done. *)
Definition cancel_target (s : State) (u : Z) : option nat :=
  match user_tasks (q s) !! u with
  | None => None
  | Some t =>
      match tasks s !! t with
      | None => None
      | Some tk => if done tk then None else Some t
      end
  end.

(** [task.cancel()] *)
Definition request_cancel (t : nat) (s : State) : State :=
  match tasks s !! t with
  | None => s
  | Some tk =>
      {| q := q s;
         tasks := <[t := {| user_id := user_id tk; job := job tk;
                            pc := pc tk; must_cancel := true |}]> (tasks s);
         log := log s |}
  end.

Definition cancel_handler (u : Z) (s : State) : State :=
  match cancel_target s u with
  | Some t => emit (EvReply u TCancelled) (emit (EvTaskCancel u t) (request_cancel t s))
  | None => emit (EvReply u TNoActive) s
  end.

(** What happens next in the process: a handler starts a generation for a
    requester, the event loop resumes a task, or a requester sends
    [/cancel]. *)
Inductive Action :=
| Submit (u : Z) (j : Job)
| Resume (t : nat) (r : Wakeup)
| Cancel (u : Z).

Definition new_task (u : Z) (j : Job) : Task :=
  {| user_id := u; job := j; pc := AwaitGlobal; must_cancel := false |}.

Definition step (a : Action) (s : State) : option State :=
  match a with
  | Submit u j =>
      Some (emit (EvSubmit (length (tasks s)) u)
              {| q := q s; tasks := tasks s ++ [new_task u j]; log := log s |})
  | Resume t r =>
      match tasks s !! t with
      | None => None
      | Some tk => _run_generation_task t tk (input_of tk r) s
      end
  | Cancel u => Some (cancel_handler u s)
  end.

Fixpoint run (acts : list Action) (s : State) : option State :=
  match acts with
  | [] => Some s
  | a :: rest =>
      match step a s with
      | None => None
      | Some s' => run rest s'
      end
  end.

(** The states the process can be in. *)
Definition reachable (s : State) : Prop := exists acts, run acts init = Some s.

Definition b2n (b : bool) : nat := if b then 1 else 0.

(** An event of the [finally] clause. *)
Definition is_cleanup (e : Event) : bool :=
  match e with
  | EvReleaseUser _ _ | EvReleaseGlobal _ | EvPop _ _ => true
  | _ => false
  end.

(** Counting the tasks that satisfy a test. *)
Definition count (P : Task -> bool) (l : list Task) : nat :=
  length (List.filter P l).

Definition admitted_for (u : Z) (tk : Task) : bool :=
  admitted tk && (user_id tk =? u)%Z.

#[global] Instance Job_eq_dec : EqDecision Job.
Proof. solve_decision. Defined.
#[global] Instance Text_eq_dec : EqDecision Text.
Proof. solve_decision. Defined.
#[global] Instance Event_eq_dec : EqDecision Event.
Proof. solve_decision. Defined.

(** The place of the first occurrence of an event in a log. *)
Fixpoint position (e : Event) (l : list Event) : option nat :=
  match l with
  | [] => None
  | x :: r => if decide (x = e) then Some 0 else S <$> position e r
  end.

(** The registry entry of [u] that a log accounts for: the task of the last
    [user_tasks[u] = ..] if no [user_tasks.pop(u, None)] came after it. *)
Fixpoint registered_by_log (u : Z) (l : list Event) (acc : option nat)
  : option nat :=
  match l with
  | [] => acc
  | EvRegister t u' :: r =>
      registered_by_log u r (if decide (u' = u) then Some t else acc)
  | EvPop _ u' :: r =>
      registered_by_log u r (if decide (u' = u) then None else acc)
  | _ :: r => registered_by_log u r acc
  end.

(** An event that writes the registry entry of [u]. *)
Definition touches_registry (u : Z) (e : Event) : bool :=
  match e with
  | EvRegister _ u' | EvPop _ u' => bool_decide (u' = u)
  | _ => false
  end.

(** The counters never hand out more tickets than they hold: free tickets
    plus ticket holders stay within the configured limits. *)
Definition capacity_inv_upto (limit : nat) (s : State) : Prop :=
  global_semaphore (q s) + count holds_global (tasks s) <= limit
  /\ forall u, user_semaphore_value (q s) u + count (admitted_for u) (tasks s)
               <= MAX_PER_USER.

Definition capacity_inv : State -> Prop :=
  capacity_inv_upto MAX_GLOBAL_CONCURRENT.

(** The registry is what the log of its writes says it is. *)
Definition registry_inv (s : State) : Prop :=
  forall u, user_tasks (q s) !! u = registered_by_log u (log s) None.

End handlers.

(** ** Concrete worlds, jobs and schedules *)

Module examples.

Import diffusion queue handlers.

(** A CPU-only host with one checkpoint file, [style.safetensors], in the
    [loras] directory; everything loads and the pipeline answers. *)
Definition world0 : World :=
  {| cuda_is_available := false;
     module_dir := lit "/app/bot";
     isfile := fun path =>
       bool_decide (path = lit "/app/bot/../loras/style.safetensors");
     from_pretrained_exc := None;
     to_exc := fun _ => None;
     enable_attention_slicing_exc := None;
     load_lora_exc := fun _ _ => None;
     pipeline_output := fun _ => Ok 0%N |}.

Definition request0 (names : option (list str)) : Request :=
  {| req_prompt := lit "cat"; req_size := (512, 512)%Z; req_steps := 30%Z;
     req_lora_names := names; req_seed := 1%Z |}.

(** The job the handlers build for the prompt "cat" with no active asset:
    default size and step count. *)
Definition job0 : Job :=
  {| prompt := lit "cat"; loras := []; size := (512, 512)%Z; steps := 30%Z |}.

(** One job of requester 7, resumed up to the [await] of the placeholder
    message; then [/cancel] arrives and the task is resumed. *)
Definition schedule_cancel_at_placeholder : list Action :=
  [Submit 7 job0; Resume 0 Completed; Resume 0 Completed;
   Cancel 7; Resume 0 Completed].

(** The same, with the placeholder message failing instead. *)
Definition schedule_placeholder_fails : list Action :=
  [Submit 7 job0; Resume 0 Completed; Resume 0 Completed;
   Resume 0 (Failed (lit "timed out"))].

(** One job of requester 7 up to the [await] of [generate_image]. *)
Definition schedule_dispatched : list Action :=
  [Submit 7 job0; Resume 0 Completed; Resume 0 Completed; Resume 0 Completed].

(** One job of requester 7 from submission to the delivered image. *)
Definition schedule_success : list Action :=
  schedule_dispatched ++ [Resume 0 Completed; Resume 0 Completed; Resume 0 Completed].

(** Requester 7 submits job 0 and, while it runs, job 1; both are
    dispatched. *)
Definition schedule_two_jobs : list Action :=
  schedule_dispatched
  ++ [Submit 7 job0; Resume 1 Completed; Resume 1 Completed; Resume 1 Completed].


(** Requester 7 has job 0 dispatched, requesters 1 to 4 hold the other
    four global tickets, and requester 7 submits job 5. *)
Definition schedule_saturated : list Action :=
  schedule_dispatched
  ++ [Submit 1 job0; Resume 1 Completed; Resume 1 Completed;
      Submit 2 job0; Resume 2 Completed; Resume 2 Completed;
      Submit 3 job0; Resume 3 Completed; Resume 3 Completed;
      Submit 4 job0; Resume 4 Completed; Resume 4 Completed;
      Submit 7 job0].

(** One job of requester 7: [generate_image] raises, and then the edit of
    the placeholder that carries the failure text raises too. *)
Definition schedule_failure_notice_fails : list Action :=
  schedule_dispatched
  ++ [Resume 0 (Failed (lit "CUDA out of memory"));
      Resume 0 (Failed (lit "Timed out"))].


(** The state a schedule leads to from the initial state ([init] when the
    schedule cannot run). *)
Definition state_after (acts : list Action) : State :=
  default handlers.init (run acts handlers.init).

End examples.

(** ** The life of a job, seen from the task table and the log *)

Module lifecycle.

Import queue handlers.

(** An edit of the placeholder message by task [t]. *)
Definition is_edit_of (t : nat) (e : Event) : bool :=
  match e with
  | EvEditText t' _ => Nat.eqb t' t
  | _ => false
  end.

(** How many times task [t] edited its placeholder message. *)
Definition edits (t : nat) (l : list Event) : nat :=
  length (List.filter (is_edit_of t) l).

(** The coroutine returned normally. *)
Definition returned (tk : Task) : bool :=
  match pc tk with
  | Finished Returned => true
  | _ => false
  end.

(** Every registry entry names a task of that requester that got past
    [_acquire_semaphores]. *)
Definition registry_wf (s : State) : Prop :=
  forall u t, user_tasks (q s) !! u = Some t ->
    exists tk, tasks s !! t = Some tk /\ user_id tk = u
               /\ (admitted tk || done tk) = true.

(** A pending [CancelledError] is pending on an admitted task. *)
Definition cancel_wf (s : State) : Prop :=
  forall t tk, tasks s !! t = Some tk -> must_cancel tk = true ->
    admitted tk = true.

(** The semaphore of a requester exists as soon as one of its tasks holds
    the global ticket. *)
Definition semaphores_wf (s : State) : Prop :=
  forall t tk, tasks s !! t = Some tk -> holds_global tk = true ->
    is_Some (_user_semaphores (q s) !! user_id tk).

(** A task edits its placeholder at most once, and only when it returns. *)
Definition edits_wf (s : State) : Prop :=
  forall t, edits t (log s)
            <= match tasks s !! t with
               | Some tk => b2n (returned tk)
               | None => 0
               end.

(** One job of requester [u], submitted as task [n] and resumed without
    anything else happening in between: up to the delivered image; up to a
    failure of [generate_image] and the failure notice; up to [/cancel]
    while the backend works. *)
Definition job_succeeds (n : nat) (u : Z) (j : Job) : list Action :=
  [Submit u j; Resume n Completed; Resume n Completed; Resume n Completed;
   Resume n Completed; Resume n Completed; Resume n Completed].

Definition job_backend_fails (n : nat) (u : Z) (j : Job) (e : str)
  : list Action :=
  [Submit u j; Resume n Completed; Resume n Completed; Resume n Completed;
   Resume n (Failed e); Resume n Completed].

Definition job_cancelled (n : nat) (u : Z) (j : Job) : list Action :=
  [Submit u j; Resume n Completed; Resume n Completed; Resume n Completed;
   Cancel u; Resume n Completed].

(** Holding the global ticket while waiting for the requester's own. *)
Definition awaits_user (tk : Task) : bool :=
  match pc tk with
  | AwaitUser => true
  | _ => false
  end.

(** Requester 7 submits five jobs; three are admitted, the other two take
    a global ticket each and wait for the requester's semaphore. *)
Definition schedule_one_requester : list Action :=
  [Submit 7 examples.job0; Resume 0 Completed; Resume 0 Completed;
   Submit 7 examples.job0; Resume 1 Completed; Resume 1 Completed;
   Submit 7 examples.job0; Resume 2 Completed; Resume 2 Completed;
   Submit 7 examples.job0; Resume 3 Completed;
   Submit 7 examples.job0; Resume 4 Completed;
   Submit 8 examples.job0].

End lifecycle.

(** ** More names for the generation backend *)

Module backend.

Import diffusion.

(** The configuration [_load_pipeline] gives a fresh pipeline: the device
    follows [torch.cuda.is_available()], the dtype and attention slicing
    follow the device. *)
Definition consistent (w : World) (p : Pipeline) : Prop :=
  device p = (if cuda_is_available w then cuda else cpu)
  /\ torch_dtype p = match device p with cuda => float16 | cpu => float32 end
  /\ attention_slicing p = match device p with cuda => true | cpu => false end.

(** What can be cached: the dtype always follows
    [torch.cuda.is_available()]; device and attention slicing are those of
    a complete load, or those of a load that stopped at [.to(device)] (the
    pipeline is still on the CPU) or at [enable_attention_slicing()] (the
    pipeline is on CUDA, without slicing). *)
Definition configured (w : World) (p : Pipeline) : Prop :=
  let dev := if cuda_is_available w then cuda else cpu in
  torch_dtype p = match dev with cuda => float16 | cpu => float32 end
  /\ (consistent w p
      \/ (is_Some (to_exc w dev)
          /\ device p = cpu /\ attention_slicing p = false)
      \/ (dev = cuda /\ is_Some (enable_attention_slicing_exc w)
          /\ device p = cuda /\ attention_slicing p = false)).

(** The pipeline with more checkpoint files loaded. *)
Definition with_lora_weights (p : Pipeline) (paths : list str) : Pipeline :=
  {| device := device p; torch_dtype := torch_dtype p;
     attention_slicing := attention_slicing p;
     lora_weights := lora_weights p ++ paths |}.

(** The line [_apply_loras] prints when loading [name] raises [exc]. *)
Definition failure_line (name exc : str) : str :=
  lit "[diffusion] Failed to load LoRA '" ++ name ++ lit "': " ++ exc.

(** Two worlds that differ at most in what a first load of the pipeline
    would meet ([from_pretrained], the available device, [.to(device)]
    and [enable_attention_slicing()]). *)
Definition same_after_load (w w' : World) : Prop :=
  module_dir w = module_dir w'
  /\ (forall path, isfile w path = isfile w' path)
  /\ (forall p path, load_lora_exc w p path = load_lora_exc w' p path)
  /\ (forall c, pipeline_output w c = pipeline_output w' c).

End backend.

(** ** [src/bot/handlers.py]: the command handlers around the job *)

Module commands.

Import diffusion handlers.

(** [sep.join(words)] *)
Fixpoint join (sep : str) (words : list str) : str :=
  match words with
  | [] => []
  | [word] => word
  | word :: rest => word ++ sep ++ join sep rest
  end.

(** [s.split(c)[0]] for a one-character [c]: the text before the first
    [c], all of [s] when there is none. *)
Fixpoint before_first (c : N) (s : str) : str :=
  match s with
  | [] => []
  | x :: r => if (x =? c)%N then [] else x :: before_first c r
  end.

(** [os.path.basename(p)] (posixpath): [p[p.rfind("/") + 1:]]. *)
Definition basename (p : str) : str := rev (before_first 47%N (rev p)).

(** [os.path.basename(url.split("?")[0])] *)
Definition filename_of_url (url : str) : str :=
  basename (before_first 63%N url).

(** [os.path.join(dirname, "..", "loras", filename)] *)
Definition loras_path (dirname filename : str) : str :=
  os_path_join (os_path_join (os_path_join dirname (lit "..")) (lit "loras"))
    filename.

(** A word as a command argument: not empty, no white space at its ends. *)
Definition word (s : str) : Prop := s <> [] /\ trimmed s.

(** *** The active assets of the requesters

    [_user_active_loras] maps a requester to a list object. The handlers
    hand that very object to the job, so the objects are kept apart from
    the dictionary: [lists] holds every list object by its number. *)
Record Actives := {
  lists : list (list str);
  _user_active_loras : gmap Z nat
}.

Definition no_actives : Actives := {| lists := []; _user_active_loras := ∅ |}.

(** The content of a list object now. *)
Definition content (a : Actives) (r : nat) : list str :=
  default [] (lists a !! r).

(** The requester's active assets now: [_user_active_loras.get(uid, [])]
    read at once. *)
Definition active_of (a : Actives) (uid : Z) : list str :=
  match _user_active_loras a !! uid with
  | Some r => content a r
  | None => []
  end.

(** [_user_active_loras.get(uid, [])]: the list object of the requester,
    or a new empty list that the dictionary does not hold. *)
Definition get_loras (uid : Z) (a : Actives) : Actives * nat :=
  match _user_active_loras a !! uid with
  | Some r => (a, r)
  | None =>
      ({| lists := lists a ++ [[]];
          _user_active_loras := _user_active_loras a |},
       length (lists a))
  end.

(** [_user_active_loras.setdefault(uid, []).append(filename)] *)
Definition activate (uid : Z) (filename : str) (a : Actives) : Actives :=
  match _user_active_loras a !! uid with
  | Some r =>
      {| lists := <[r := content a r ++ [filename]]> (lists a);
         _user_active_loras := _user_active_loras a |}
  | None =>
      {| lists := lists a ++ [[filename]];
         _user_active_loras := <[uid := length (lists a)]> (_user_active_loras a) |}
  end.

(** [clear_loras_handler]: [_user_active_loras[user_id] = []], a new list. *)
Definition clear_loras_handler (uid : Z) (a : Actives) : Actives :=
  {| lists := lists a ++ [[]];
     _user_active_loras := <[uid := length (lists a)]> (_user_active_loras a) |}.

(** Every list object the dictionary names exists, and no two requesters
    share one. *)
Definition actives_wf (a : Actives) : Prop :=
  (forall uid r, _user_active_loras a !! uid = Some r -> r < length (lists a))
  /\ (forall uid1 uid2 r,
        _user_active_loras a !! uid1 = Some r ->
        _user_active_loras a !! uid2 = Some r -> uid1 = uid2).

(** *** Starting a generation *)

(** What a handler passes to [_run_generation_task]: the prompt and the
    list object; size and steps are left to their defaults. *)
Record Submission := {
  sub_user : Z;
  sub_prompt : str;
  sub_loras : nat
}.

(** The job the backend sees when it runs: the names are read from the
    list object at that moment. *)
Definition job_at_dispatch (a : Actives) (sub : Submission) : Job :=
  {| prompt := sub_prompt sub; loras := content a (sub_loras sub);
     size := (512, 512)%Z; steps := 30%Z |}.

Inductive Reply :=
| UsageGen                  (** "Usage: /gen <prompt>" *)
| UsageIdea                 (** "Usage: /idea <your description>" *)
| UsageLora                 (** "Usage: /lora <direct-download-url>" *)
| GeneratingPrompt          (** "Generating prompt with LLM..." *)
| GeneratingRandom          (** "Generating a random prompt..." *)
| LoraDownloaded (filename : str)
| LoraFailed (exc : str)
| LorasCleared.

(** [gen_handler]: the replies, and the submission if there is one. *)
Definition gen_handler (uid : Z) (args : list str) (a : Actives)
  : Actives * list Reply * option Submission :=
  match args with
  | [] => (a, [UsageGen], None)
  | _ =>
      let '(a', r) := get_loras uid a in
      (a', [], Some {| sub_user := uid; sub_prompt := join (lit " ") args;
                       sub_loras := r |})
  end.


Definition random_prompt : str :=
  lit "tiger and dragon duo, fantasy landscape, vivid colors, detailed illustration".

(** [random_handler] *)
Definition random_handler (uid : Z) (a : Actives)
  : Actives * list Reply * option Submission :=
  let '(a', r) := get_loras uid a in
  (a', [GeneratingRandom],
   Some {| sub_user := uid; sub_prompt := random_prompt; sub_loras := r |}).

(** *** Downloading an asset *)

(** What [requests.get(url, stream=True)] gives: the exception of
    [raise_for_status], the chunks [iter_content] yields, and the
    exception it raises after them, if any. *)
Record Response := {
  status_exc : option str;
  chunks : list str;
  stream_exc : option str
}.

Record Net := {
  (** [requests.get], or its exception *)
  requests_get : str -> result Response;
  (** the exception of [open(path, "wb")], if it raises *)
  open_exc : str -> option str;
  (** the exception of [update.message.reply_text(..)] for a given reply,
      if it raises *)
  reply_exc : Reply -> option str;
  (** [os.path.dirname(__file__)] *)
  dirname : str
}.

(** [await update.message.reply_text(..)]: the reply the requester got,
    or the exception. *)
Definition reply_text (net : Net) (reply : Reply) : result Reply :=
  match reply_exc net reply with
  | Some e => Raise e
  | None => Ok reply
  end.

(** The files on disk with their content, and the active assets. *)
Record Store := {
  disk : gmap str str;
  actives : Actives
}.

(** [lora_handler]: the store afterwards, and the reply the requester got
    or the exception that left the handler. The success reply is awaited
    inside the [try] statement, after the name was appended: when it
    raises, the [except] clause answers with the failure text. *)
Definition lora_handler (net : Net) (uid : Z) (args : list str) (st : Store)
  : Store * result Reply :=
  match args with
  | [] => (st, reply_text net UsageLora)
  | url :: _ =>
      match requests_get net url with
      | Raise e => (st, reply_text net (LoraFailed e))
      | Ok response =>
          match status_exc response with
          | Some e => (st, reply_text net (LoraFailed e))
          | None =>
              let filename := filename_of_url url in
              let path := loras_path (dirname net) filename in
              match open_exc net path with
              | Some e => (st, reply_text net (LoraFailed e))
              | None =>
                  let written :=
                    {| disk := <[path := concat (chunks response)]> (disk st);
                       actives := actives st |} in
                  match stream_exc response with
                  | Some e => (written, reply_text net (LoraFailed e))
                  | None =>
                      let activated :=
                        {| disk := disk written;
                           actives := activate uid filename (actives st) |} in
                      match reply_exc net (LoraDownloaded filename) with
                      | None => (activated, Ok (LoraDownloaded filename))
                      | Some e => (activated, reply_text net (LoraFailed e))
                      end
                  end
              end
          end
      end
  end.

(** The backend's view of the disk: a path is a file when the disk holds
    it. *)
Definition world_of (net : Net) (st : Store) (w : World) : World :=
  {| cuda_is_available := cuda_is_available w;
     module_dir := dirname net;
     isfile := fun path => bool_decide (is_Some (disk st !! path));
     from_pretrained_exc := from_pretrained_exc w;
     to_exc := to_exc w;
     enable_attention_slicing_exc := enable_attention_slicing_exc w;
     load_lora_exc := load_lora_exc w;
     pipeline_output := pipeline_output w |}.

(** *** Concrete inputs *)

(** A server that answers every URL with two chunks, and a disk that takes
    every file. *)
Definition net0 : Net :=
  {| requests_get := fun _ =>
       Ok {| status_exc := None; chunks := [lit "safe"; lit "tensors"];
             stream_exc := None |};
     open_exc := fun _ => None;
     reply_exc := fun _ => None;
     dirname := lit "/app/bot" |}.

(** The server of [net0], with a chat in which the success reply is not
    delivered. *)
Definition net_reply_fails : Net :=
  {| requests_get := requests_get net0;
     open_exc := fun _ => None;
     reply_exc := fun reply =>
       match reply with
       | LoraDownloaded _ => Some (lit "Timed out")
       | _ => None
       end;
     dirname := lit "/app/bot" |}.

Definition url0 : str :=
  lit "https://example.org/files/style.safetensors?token=abc".

Definition store0 : Store := {| disk := ∅; actives := no_actives |}.

(** Requester 7 has downloaded the asset of [url0]. *)
Definition store1 : Store := fst (lora_handler net0 7 [url0] store0).

End commands.

(** * Properties *)

(** *** Facts about [strip] *)




(** C6. Without a client (no API key) [generate_prompt_from_idea] returns
    [idea_text.strip()]: on the idea " cat" (one leading blank) it answers
    "cat", which is not the input text. *)
Theorem generate_prompt_from_idea_fallback_strips :
  llm.generate_prompt_from_idea None (lit " cat") = Ok (lit "cat")
  /\ llm.generate_prompt_from_idea None (lit " cat") <> Ok (lit " cat").
Proof. split; [reflexivity | discriminate]. Qed.


(** ** The generation backend *)

Section DiffusionFacts.
Import diffusion.
Variable w : World.

Lemma apply_loras_loop_located p out names :
  _apply_loras_loop w p out names
  = _apply_loras_loop w p out (List.filter (located w) names).
Proof.
  revert p out. induction names as [|name rest IH]; intros p out; [reflexivity|].
  simpl. unfold located at 1. fold (loras_dir w).
  destruct (isfile w (os_path_join (loras_dir w) name)) eqn:Hf; simpl.
  - rewrite Hf. simpl.
    destruct (load_lora_weights w p _); apply IH.
  - apply IH.
Qed.

Lemma apply_loras_located p names :
  _apply_loras w p names = _apply_loras w p (List.filter (located w) names).
Proof.
  unfold _apply_loras.
  destruct names as [|n r]; [reflexivity|].
  rewrite apply_loras_loop_located.
  now destruct (List.filter (located w) (n :: r)).
Qed.



(** With a cached pipeline, a request invokes it once, after applying
    the request's assets to that very object. *)
Lemma generate_image_cached st p prompt size steps names seed :
  _pipeline st = Some p ->
  let p' := fst (_apply_loras w p (default [] names)) in
  let st' := fst (generate_image w st prompt size steps names seed) in
  _pipeline st' = Some p'
  /\ calls st' = calls st ++ [{| call_prompt := prompt;
                                 call_height := fst size;
                                 call_width := snd size;
                                 call_num_inference_steps := steps;
                                 call_seed := seed;
                                 call_pipeline := p' |}].
Proof.
  intros Hp. unfold generate_image, _load_pipeline. rewrite Hp.
  destruct names as [l|]; simpl.
  - destruct (_apply_loras w p l) as [p1 pr]; simpl; auto.
  - auto.
Qed.



(** A first load in which nothing raises caches the pipeline it returns,
    with no file loaded, and touches nothing else. *)
Lemma load_pipeline_loads st :
  _pipeline st = None -> loads w ->
  exists p, _load_pipeline w st = (bind_pipeline p st, Ok p)
            /\ lora_weights p = [].
Proof.
  intros Hp (Hf & Ht & Hs). unfold _load_pipeline. rewrite Hp, Hf, Ht.
  destruct (cuda_is_available w).
  - rewrite (Hs eq_refl). eauto.
  - eauto.
Qed.

End DiffusionFacts.

Lemma loads_world0 : diffusion.loads examples.world0.
Proof. split; [reflexivity|]. split; [reflexivity|]. intros H. discriminate H. Qed.

(** C8. A named asset that is not a file under the [loras] directory is
    skipped: a request behaves exactly as the same request without the
    names that cannot be located (same result, same cached pipeline, same
    pipeline invocation, and nothing printed for them). *)
Theorem generate_image_skips_missing_assets
    (w : diffusion.World) (st : diffusion.State) (prompt : str) (size : Z * Z)
    (steps : Z) (names : list str) (seed : Z) :
  diffusion.generate_image w st prompt size steps (Some names) seed
  = diffusion.generate_image w st prompt size steps
      (Some (List.filter (diffusion.located w) names)) seed.
Proof.
  unfold diffusion.generate_image.
  destruct (diffusion._load_pipeline w st) as [st1 [p|e]]; [|reflexivity].
  now rewrite apply_loras_located.
Qed.

(** A request that names only a file that does not exist: the image comes
    back, nothing is printed, and the cached pipeline has no file loaded. *)
Example missing_asset_request_succeeds :
  diffusion.generate_image examples.world0 diffusion.init (lit "cat")
    (512, 512)%Z 30%Z (Some [lit "missing.safetensors"]) 1%Z
  = ({| diffusion._pipeline :=
          Some {| diffusion.device := diffusion.cpu;
                  diffusion.torch_dtype := diffusion.float32;
                  diffusion.attention_slicing := false;
                  diffusion.lora_weights := [] |};
        diffusion.stdout := [];
        diffusion.calls :=
          [{| diffusion.call_prompt := lit "cat";
              diffusion.call_height := 512%Z;
              diffusion.call_width := 512%Z;
              diffusion.call_num_inference_steps := 30%Z;
              diffusion.call_seed := 1%Z;
              diffusion.call_pipeline :=
                {| diffusion.device := diffusion.cpu;
                   diffusion.torch_dtype := diffusion.float32;
                   diffusion.attention_slicing := false;
                   diffusion.lora_weights := [] |} |}] |},
     Ok 0%N).
Proof. reflexivity. Qed.

(** C7 (as amended). The pipeline, cached already or loaded by the
    request, is invoked once per request, with the FIRST component of
    [size] as its height and the SECOND as its width. *)
Theorem generate_image_height_first_width_second
    (w : diffusion.World) (st : diffusion.State) (prompt : str) (size : Z * Z)
    (steps : Z) (names : option (list str)) (seed : Z) :
  is_Some (diffusion._pipeline st) \/ diffusion.loads w ->
  exists p,
    diffusion.calls (fst (diffusion.generate_image w st prompt size steps names seed))
    = diffusion.calls st
      ++ [{| diffusion.call_prompt := prompt;
             diffusion.call_height := fst size;
             diffusion.call_width := snd size;
             diffusion.call_num_inference_steps := steps;
             diffusion.call_seed := seed;
             diffusion.call_pipeline := p |}].
Proof.
  intros H.
  destruct (diffusion._pipeline st) as [p0|] eqn:Hp.
  - eexists. eapply generate_image_cached. exact Hp.
  - destruct H as [[p0 Hs]|Hl]; [discriminate|].
    destruct (load_pipeline_loads w st Hp Hl) as (p0 & Hload & _).
    unfold diffusion.generate_image. rewrite Hload.
    destruct (diffusion._apply_loras w _ _) as [p1 pr]. simpl. eauto.
Qed.

Lemma generate_image_height_first_width_second_witness :
  diffusion.loads examples.world0
  /\ exists p,
       diffusion.calls
         (fst (diffusion.generate_image examples.world0 diffusion.init
                 (lit "cat") (640, 480)%Z 30%Z None 1%Z))
       = diffusion.calls diffusion.init
         ++ [{| diffusion.call_prompt := lit "cat";
                diffusion.call_height := 640%Z;
                diffusion.call_width := 480%Z;
                diffusion.call_num_inference_steps := 30%Z;
                diffusion.call_seed := 1%Z;
                diffusion.call_pipeline := p |}].
Proof.
  split; [exact loads_world0|].
  apply (generate_image_height_first_width_second examples.world0
           diffusion.init (lit "cat") (640, 480)%Z 30%Z None 1%Z).
  right. exact loads_world0.
Defined.

(** C7, as stated, fails for the size pair (640, 480): the pipeline gets
    width 480 and height 640. *)
Lemma generate_image_640_480_swaps_width_and_height :
  exists c,
    diffusion.calls
      (fst (diffusion.generate_image examples.world0 diffusion.init
              (lit "cat") (640, 480)%Z 30%Z None 1%Z)) = [c]
    /\ diffusion.call_width c = 480%Z
    /\ diffusion.call_height c = 640%Z
    /\ ~ (diffusion.call_width c = 640%Z /\ diffusion.call_height c = 480%Z).
Proof.
  eexists. split; [reflexivity|]. simpl.
  repeat split; intros [H _]; discriminate H.
Qed.



(** ** The orchestrator *)

Section HandlersFacts.
Import queue handlers.


Lemma count_app P l1 l2 : count P (l1 ++ l2) = count P l1 + count P l2.
Proof. unfold count. now rewrite List.filter_app, length_app. Qed.

Lemma count_insert P (l : list Task) i x y :
  l !! i = Some x ->
  count P (<[i := y]> l) + b2n (P x) = count P l + b2n (P y).
Proof.
  unfold count. revert i. induction l as [|a l IH]; intros i H; [discriminate|].
  destruct i as [|i]; simpl in *.
  - injection H as ->. unfold b2n. destruct (P x), (P y); simpl; lia.
  - specialize (IH i H). destruct (P a); simpl; lia.
Qed.

Lemma count_pos P (l : list Task) i x :
  l !! i = Some x -> P x = true -> 0 < count P l.
Proof.
  unfold count. revert i. induction l as [|a l IH]; intros i H Hx; [discriminate|].
  destruct i as [|i]; simpl in *.
  - injection H as ->. rewrite Hx. simpl. lia.
  - specialize (IH i H Hx). destruct (P a); simpl; lia.
Qed.

Lemma usv_get_user_semaphore u st u' :
  user_semaphore_value (get_user_semaphore u st) u' = user_semaphore_value st u'.
Proof.
  unfold get_user_semaphore, user_semaphore_value.
  destruct (_user_semaphores st !! u) eqn:E; [reflexivity|]. simpl.
  destruct (decide (u = u')) as [->|Hne].
  - now rewrite lookup_insert_eq, E.
  - now rewrite lookup_insert_ne.
Qed.

Lemma usv_set_user u v st u' :
  user_semaphore_value (set_user u v st) u'
  = if decide (u = u') then v else user_semaphore_value st u'.
Proof.
  unfold set_user, user_semaphore_value. simpl.
  destruct (decide (u = u')) as [->|Hne].
  - now rewrite lookup_insert_eq.
  - now rewrite lookup_insert_ne.
Qed.

Lemma usv_release_user_ne u st u' :
  u <> u' ->
  user_semaphore_value (release_user u st) u' = user_semaphore_value st u'.
Proof.
  intros Hne. unfold release_user, user_semaphore_value. simpl.
  now rewrite lookup_alter_ne.
Qed.

Lemma usv_release_user_eq u st :
  user_semaphore_value (release_user u st) u
  = match _user_semaphores st !! u with
    | Some v => S v
    | None => MAX_PER_USER
    end.
Proof.
  unfold release_user, user_semaphore_value. simpl.
  rewrite lookup_alter_eq. now destruct (_user_semaphores st !! u).
Qed.


Lemma sem_acquire_Some value v : sem_acquire value = Some v -> value = S v.
Proof. destruct value; simpl; congruence. Qed.

(** A resumed task gives back at most what it held. *)
Lemma capacity_inv_goto limit s t tk p (st' : Store) l' :
  tasks s !! t = Some tk ->
  global_semaphore st' + b2n (holds_global (at_pc tk p))
    <= global_semaphore (q s) + b2n (holds_global tk) ->
  (forall u, user_semaphore_value st' u + b2n (admitted_for u (at_pc tk p))
             <= user_semaphore_value (q s) u + b2n (admitted_for u tk)) ->
  capacity_inv_upto limit s ->
  capacity_inv_upto limit
    {| q := st'; tasks := <[t := at_pc tk p]> (tasks s); log := l' |}.
Proof.
  intros Ht Hg Hu [Ig Iu]. split; cbn [q tasks log].
  - pose proof (count_insert holds_global _ _ _ (at_pc tk p) Ht) as Hc.
    clear - Hc Hg Ig. lia.
  - intros u. specialize (Iu u). specialize (Hu u).
    pose proof (count_insert (admitted_for u) _ _ _ (at_pc tk p) Ht). lia.
Qed.

Lemma usv_release_user_le u st u' :
  user_semaphore_value (release_user u st) u'
  <= user_semaphore_value st u' + (if decide (u = u') then 1 else 0).
Proof.
  destruct (decide (u = u')) as [<-|Hne].
  - rewrite usv_release_user_eq. unfold user_semaphore_value.
    destruct (_user_semaphores st !! u); simpl; [lia | unfold MAX_PER_USER; lia].
  - rewrite usv_release_user_ne by exact Hne. lia.
Qed.

Lemma global_get_user_semaphore u st :
  global_semaphore (get_user_semaphore u st) = global_semaphore st.
Proof. unfold get_user_semaphore. now destruct (_user_semaphores st !! u). Qed.

Lemma usv_finally u st u' :
  user_semaphore_value (pop u (release_global (release_user u st))) u'
  <= user_semaphore_value st u' + b2n (u =? u')%Z.
Proof.
  change (user_semaphore_value (pop u (release_global (release_user u st))) u')
    with (user_semaphore_value (release_user u st) u').
  pose proof (usv_release_user_le u st u') as H.
  destruct (Z.eqb_spec u u'), (decide (u = u')); simpl in *;
    try contradiction; lia.
Qed.

Lemma usv_register u t v st u' :
  _user_semaphores st !! u = Some (S v) ->
  user_semaphore_value (register u t (set_user u v st)) u' + b2n (u =? u')%Z
  <= user_semaphore_value st u'.
Proof.
  intros H.
  change (user_semaphore_value (register u t (set_user u v st)) u')
    with (user_semaphore_value (set_user u v st) u').
  rewrite usv_set_user.
  destruct (Z.eqb_spec u u'), (decide (u = u')); simpl;
    try contradiction; try lia.
  subst u'. unfold user_semaphore_value. rewrite H. simpl. lia.
Qed.

Lemma step_capacity_inv limit a s s' :
  capacity_inv_upto limit s -> step a s = Some s' -> capacity_inv_upto limit s'.
Proof.
  intros I Hs. destruct a as [u j|t r|u]; simpl in Hs.
  - (* Submit *)
    injection Hs as <-. destruct I as [Ig Iu]. split; cbn [q tasks log emit].
    + rewrite count_app.
      change (count holds_global [new_task u j]) with 0. lia.
    + intros u0. specialize (Iu u0). rewrite count_app.
      change (count (admitted_for u0) [new_task u j]) with 0. lia.
  - (* Resume *)
    destruct (tasks s !! t) as [tk|] eqn:Ht; [|discriminate].
    unfold _run_generation_task in Hs.
    destruct tk as [u j p mc]. unfold input_of in Hs. simpl in Hs.
    destruct p, mc, r; simpl in Hs;
      repeat match type of Hs with
             | match ?x with _ => _ end = Some _ =>
                 let E := fresh "E" in destruct x eqn:E; try discriminate
             end;
      try discriminate; injection Hs as <-;
      unfold goto, finally, _release_semaphores, emit, with_q; simpl;
      (apply capacity_inv_goto; [exact Ht | | | exact I]);
      unfold holds_global, admitted_for, admitted, at_pc; simpl.
    all: try lia.
    all: try (apply sem_acquire_Some in E; lia).
    all: try (intros u0; rewrite ?usv_get_user_semaphore).
    all: try (unfold b2n; simpl; lia).
    all: try (unfold set_global, user_semaphore_value; simpl; lia).
    all: try (pose proof (usv_finally u (q s) u0); lia).
    + rewrite global_get_user_semaphore. simpl.
      apply sem_acquire_Some in E. lia.
    + apply sem_acquire_Some in E0. subst n.
      pose proof (usv_register u t n0 (q s) u0 E). lia.
  - (* Cancel *)
    injection Hs as <-. unfold cancel_handler.
    destruct (cancel_target s u) as [t|] eqn:Hc; [|exact I].
    unfold request_cancel, emit. cbn [q tasks log].
    destruct (tasks s !! t) as [tk|] eqn:Ht; [|exact I].
    destruct I as [Ig Iu]. split; cbn [q tasks log].
    + pose proof (count_insert holds_global _ _ _
                    {| user_id := user_id tk; job := job tk; pc := pc tk;
                       must_cancel := true |} Ht) as H.
      change (holds_global {| user_id := user_id tk; job := job tk;
                              pc := pc tk; must_cancel := true |})
        with (holds_global tk) in H. lia.
    + intros u0. specialize (Iu u0).
      pose proof (count_insert (admitted_for u0) _ _ _
                    {| user_id := user_id tk; job := job tk; pc := pc tk;
                       must_cancel := true |} Ht) as H.
      change (admitted_for u0 {| user_id := user_id tk; job := job tk;
                                 pc := pc tk; must_cancel := true |})
        with (admitted_for u0 tk) in H. lia.
Qed.

Lemma init_capacity_inv : capacity_inv init.
Proof.
  split; [|intros u]; unfold init, queue.init, user_semaphore_value, count;
    cbn [q tasks log global_semaphore _user_semaphores List.filter length].
  - lia.
  - rewrite lookup_empty. unfold MAX_PER_USER. simpl. lia.
Qed.

Lemma run_invariant (P : State -> Prop) :
  (forall a s s', P s -> step a s = Some s' -> P s') ->
  forall acts s s', P s -> run acts s = Some s' -> P s'.
Proof.
  intros Hstep. induction acts as [|a rest IH]; intros s s' Hs Hr; simpl in Hr.
  - now injection Hr as <-.
  - destruct (step a s) as [s1|] eqn:E; [|discriminate].
    eapply IH; [|exact Hr]. eapply Hstep; eauto.
Qed.

Lemma reachable_capacity_inv s : reachable s -> capacity_inv s.
Proof.
  intros [acts Hr].
  eapply (run_invariant capacity_inv);
    [exact (step_capacity_inv MAX_GLOBAL_CONCURRENT) | | exact Hr].
  exact init_capacity_inv.
Qed.

Lemma count_le P Q (l : list Task) :
  (forall x, P x = true -> Q x = true) -> count P l <= count Q l.
Proof.
  intros H. unfold count. induction l as [|a l IH]; simpl; [lia|].
  destruct (P a) eqn:EP.
  - rewrite (H a EP). simpl. lia.
  - destruct (Q a); simpl; lia.
Qed.

Lemma admitted_holds_global tk : admitted tk = true -> holds_global tk = true.
Proof. unfold holds_global, admitted. now destruct (pc tk). Qed.

(** *** The registry and the log *)

Lemma registered_by_log_app u l1 l2 acc :
  registered_by_log u (l1 ++ l2) acc
  = registered_by_log u l2 (registered_by_log u l1 acc).
Proof.
  revert acc. induction l1 as [|e l1 IH]; intros acc; [reflexivity|].
  destruct e; simpl; apply IH.
Qed.

Lemma registered_by_log_untouched u l acc :
  forallb (fun e => negb (touches_registry u e)) l = true ->
  registered_by_log u l acc = acc.
Proof.
  revert acc. induction l as [|e l IH]; intros acc H; [reflexivity|].
  simpl in H. apply andb_true_iff in H as [He Hl].
  destruct e; simpl in *; try (now apply IH).
  - apply negb_true_iff, bool_decide_eq_false in He.
    destruct (decide (u0 = u)); [contradiction|now apply IH].
  - apply negb_true_iff, bool_decide_eq_false in He.
    destruct (decide (u0 = u)); [contradiction|now apply IH].
Qed.

Lemma user_tasks_get_user_semaphore u st :
  user_tasks (get_user_semaphore u st) = user_tasks st.
Proof. unfold get_user_semaphore. now destruct (_user_semaphores st !! u). Qed.

Lemma step_registry_inv a s s' :
  registry_inv s -> step a s = Some s' -> registry_inv s'.
Proof.
  intros I Hs u0. specialize (I u0).
  destruct a as [u j|t r|u]; simpl in Hs.
  - injection Hs as <-. simpl. rewrite registered_by_log_app. simpl. exact I.
  - destruct (tasks s !! t) as [tk|] eqn:Ht; [|discriminate].
    unfold _run_generation_task in Hs.
    destruct tk as [u j p mc]. unfold input_of in Hs. simpl in Hs.
    destruct p, mc, r; simpl in Hs;
      repeat match type of Hs with
             | match ?x with _ => _ end = Some _ =>
                 let E := fresh "E" in destruct x eqn:E; try discriminate
             end;
      try discriminate; injection Hs as <-;
      unfold goto, finally, _release_semaphores, emit, with_q; simpl;
      rewrite ?user_tasks_get_user_semaphore; simpl;
      rewrite ?registered_by_log_app; simpl; rewrite <- ?I;
      try reflexivity;
      destruct (decide (u = u0)) as [->|Hne];
      rewrite ?lookup_insert_eq, ?lookup_delete_eq;
      rewrite ?lookup_insert_ne, ?lookup_delete_ne by exact Hne;
      reflexivity.
  - injection Hs as <-. unfold cancel_handler.
    destruct (cancel_target s u) as [t|]; simpl.
    + rewrite !registered_by_log_app. simpl.
      unfold request_cancel. now destruct (tasks s !! t).
    + rewrite registered_by_log_app. simpl. exact I.
Qed.

Lemma reachable_registry_inv s : reachable s -> registry_inv s.
Proof.
  intros [acts Hr].
  eapply (run_invariant registry_inv); [exact step_registry_inv | | exact Hr].
  intros u. unfold init, queue.init. simpl. apply lookup_empty.
Qed.


(** *** The end of a task *)

(** A task inside the [try] statement that ends its coroutine runs the
    [finally] clause in that same step, after at most one last edit of
    the placeholder message. *)
Lemma finishing_step_in_try s t tk r s' tk' :
  tasks s !! t = Some tk -> in_try tk = true ->
  step (Resume t r) s = Some s' ->
  tasks s' !! t = Some tk' -> done tk' = true ->
  exists o pre,
    q s' = pop (user_id tk) (release_global (release_user (user_id tk) (q s)))
    /\ tasks s' = <[t := at_pc tk (Finished o)]> (tasks s)
    /\ log s' = log s ++ pre
                ++ [EvReleaseUser t (user_id tk); EvReleaseGlobal t;
                    EvPop t (user_id tk)]
    /\ (pre = [] \/ exists txt, pre = [EvEditText t txt]).
Proof.
  intros Ht Htry Hs Ht' Hd.
  assert (Hlt : t < length (tasks s)) by (eapply lookup_lt_Some; exact Ht).
  cbn [step] in Hs. rewrite Ht in Hs.
  unfold _run_generation_task in Hs.
  destruct tk as [u j p mc]. unfold input_of in Hs. cbn [pc must_cancel user_id] in *.
  unfold in_try in Htry. cbn [pc] in Htry.
  destruct p; try discriminate Htry; destruct mc, r; cbn in Hs;
    injection Hs as <-.
  all: unfold goto, finally, _release_semaphores, emit, with_q in *;
    cbn [q tasks log] in *.
  all: try (rewrite (list_lookup_insert_eq _ _ _ Hlt) in Ht';
            injection Ht' as <-; discriminate Hd).
  all: rewrite <- ?app_assoc; cbn [app].
  all: eexists.
  all: first
    [ exists []; split; [reflexivity|]; split; [reflexivity|];
      split; [reflexivity | left; reflexivity]
    | eexists [_]; split; [reflexivity|]; split; [reflexivity|];
      split; [reflexivity | right; eexists; reflexivity] ].
Qed.

(** A task that ends at the [await] of the placeholder message, before
    the [try] statement, ends without any cleanup. *)
Lemma ending_before_try_skips_cleanup s t tk r s' :
  tasks s !! t = Some tk -> pc tk = AwaitProgress ->
  must_cancel tk = true \/ (exists e, r = Failed e) ->
  step (Resume t r) s = Some s' ->
  q s' = q s /\ log s' = log s
  /\ exists o, tasks s' = <[t := at_pc tk (Finished o)]> (tasks s).
Proof.
  intros Ht Hpc Hc Hs. simpl in Hs. rewrite Ht in Hs.
  unfold _run_generation_task, input_of in Hs. rewrite Hpc in Hs.
  destruct (must_cancel tk).
  - injection Hs as <-. simpl. eauto.
  - destruct Hc as [Hc|[e ->]]; [discriminate|].
    injection Hs as <-. simpl. eauto.
Qed.


(** C2. In every state the process can reach, at most
  [MAX_GLOBAL_CONCURRENT] = 5 jobs are admitted, and at most
  [MAX_PER_USER] = 3 of them belong to any one requester. *)
Theorem admitted_jobs_within_limits (s : State) :
reachable s ->
count admitted (tasks s) <= MAX_GLOBAL_CONCURRENT
/\ (forall u, count (admitted_for u) (tasks s) <= MAX_PER_USER)
/\ MAX_GLOBAL_CONCURRENT = 5 /\ MAX_PER_USER = 3.
Proof.
intros Hr. destruct (reachable_capacity_inv s Hr) as [Ig Iu].
split; [|split; [|split; reflexivity]].
- pose proof (count_le admitted holds_global (tasks s) admitted_holds_global).
  lia.
- intros u. specialize (Iu u). lia.
Qed.

Lemma admitted_jobs_within_limits_witness :
let s := examples.state_after examples.schedule_saturated in
reachable s
/\ length (tasks s) = 6
/\ count admitted (tasks s) <= MAX_GLOBAL_CONCURRENT
/\ (forall u, count (admitted_for u) (tasks s) <= MAX_PER_USER)
/\ MAX_GLOBAL_CONCURRENT = 5 /\ MAX_PER_USER = 3.
Proof.
intros s.
assert (Hr : reachable s)
  by (exists examples.schedule_saturated; vm_compute; reflexivity).
split; [exact Hr|]. split; [reflexivity|].
apply (admitted_jobs_within_limits s Hr).
Defined.

(** C1. A job that is admitted and registered, and is cancelled while it
  awaits the placeholder message (the [await] before the [try]
  statement), ends without its [finally] clause: both tickets stay taken
  and the registry still names the finished task. The same happens when
  sending the placeholder message raises. *)
Theorem cancel_at_placeholder_leaks_tickets :
let s := examples.state_after examples.schedule_cancel_at_placeholder in
let s' := examples.state_after examples.schedule_placeholder_fails in
(run examples.schedule_cancel_at_placeholder init = Some s
 /\ pc <$> tasks s = [Finished Cancelled]
 /\ global_semaphore (q s) = 4
 /\ user_semaphore_value (q s) 7 = 2
 /\ user_tasks (q s) !! 7%Z = Some 0
 /\ forallb (fun e => negb (is_cleanup e)) (log s) = true)
/\ (run examples.schedule_placeholder_fails init = Some s'
    /\ pc <$> tasks s' = [Finished (Raised (lit "timed out"))]
    /\ global_semaphore (q s') = 4
    /\ user_semaphore_value (q s') 7 = 2
    /\ user_tasks (q s') !! 7%Z = Some 0
    /\ forallb (fun e => negb (is_cleanup e)) (log s') = true).
Proof. vm_compute. repeat split. Qed.

(** The ticket lost that way is lost for good: whatever happens after the
    cancelled job has ended, the global counter never gets back above 4 and
    never more than 4 jobs are admitted. *)
Lemma leaked_ticket_is_never_returned acts s2 :
  run acts (examples.state_after examples.schedule_cancel_at_placeholder)
  = Some s2 ->
  global_semaphore (q s2) <= 4 /\ count admitted (tasks s2) <= 4.
Proof.
  intros Hr.
  assert (I : capacity_inv_upto 4 s2).
  { eapply (run_invariant (capacity_inv_upto 4));
      [exact (step_capacity_inv 4) | | exact Hr].
    split; [vm_compute; lia|].
    intros u. unfold user_semaphore_value.
    change (count (admitted_for u)
              (tasks (examples.state_after
                        examples.schedule_cancel_at_placeholder))) with 0.
    replace (_user_semaphores
               (q (examples.state_after
                     examples.schedule_cancel_at_placeholder)))
      with (<[7%Z := 2]> (∅ : gmap Z nat)) by (vm_compute; reflexivity).
    destruct (decide (u = 7%Z)) as [->|Hne].
    - rewrite lookup_insert_eq. unfold MAX_PER_USER. simpl. lia.
    - rewrite lookup_insert_ne by congruence. rewrite lookup_empty.
      unfold MAX_PER_USER. simpl. lia. }
  destruct I as [Ig _].
  pose proof (count_le admitted holds_global (tasks s2) admitted_holds_global).
  lia.
Qed.

(** C3 (as amended). A job that ends inside the [try] statement runs its
  cleanup in one uninterrupted step and in this order: the per-requester
  ticket is released, then the global ticket, and the registry entry is
  removed last. *)
Theorem cleanup_releases_then_unregisters s t tk r s' tk' :
tasks s !! t = Some tk -> in_try tk = true ->
step (Resume t r) s = Some s' ->
tasks s' !! t = Some tk' -> done tk' = true ->
exists pre,
  log s' = log s ++ pre
           ++ [EvReleaseUser t (user_id tk); EvReleaseGlobal t;
               EvPop t (user_id tk)]
  /\ forallb (fun e => negb (is_cleanup e)) pre = true.
Proof.
intros Ht Htry Hs Ht' Hd.
destruct (finishing_step_in_try s t tk r s' tk' Ht Htry Hs Ht' Hd)
  as (o & pre & _ & _ & Hl & Hpre).
exists pre. split; [exact Hl|].
destruct Hpre as [->|[txt ->]]; reflexivity.
Qed.

Lemma cleanup_releases_then_unregisters_witness :
let s := examples.state_after
           (examples.schedule_dispatched
            ++ [Resume 0 Completed; Resume 0 Completed]) in
let s' := examples.state_after examples.schedule_success in
let tk := {| user_id := 7; job := examples.job0; pc := AwaitEditOk;
             must_cancel := false |} in
let tk' := {| user_id := 7; job := examples.job0; pc := Finished Returned;
              must_cancel := false |} in
(tasks s !! 0 = Some tk /\ in_try tk = true
 /\ step (Resume 0 Completed) s = Some s'
 /\ tasks s' !! 0 = Some tk' /\ done tk' = true)
/\ exists pre,
     log s' = log s ++ pre
              ++ [EvReleaseUser 0 7; EvReleaseGlobal 0; EvPop 0 7]
     /\ forallb (fun e => negb (is_cleanup e)) pre = true.
Proof.
intros s s' tk tk'.
assert (H1 : tasks s !! 0 = Some tk) by reflexivity.
assert (H2 : in_try tk = true) by reflexivity.
assert (H3 : step (Resume 0 Completed) s = Some s')
  by (vm_compute; reflexivity).
assert (H4 : tasks s' !! 0 = Some tk') by reflexivity.
assert (H5 : done tk' = true) by reflexivity.
split; [repeat split; assumption|].
exact (cleanup_releases_then_unregisters s 0 tk Completed s' tk' H1 H2 H3 H4 H5).
Defined.

(** C3, as stated, fails on a job that succeeds: in its log the registry
  entry is removed after both releases, not before them. *)
Lemma cleanup_pops_registry_after_releases :
let l := log (examples.state_after examples.schedule_success) in
exists i j k,
  position (EvPop 0 7) l = Some i
  /\ position (EvReleaseUser 0 7) l = Some j
  /\ position (EvReleaseGlobal 0) l = Some k
  /\ j < k /\ k < i /\ ~ (i < j).
Proof.
exists 10, 8, 9. vm_compute. repeat split; try lia.
Qed.


(** C4 (as amended). Registering overwrites the requester's entry: when
  job [t] is the last one registered for requester [u], no job of [u]
  has removed the entry since, and [t] is not done, [/cancel] from [u]
  cancels [t] and no other job. *)
Theorem cancel_targets_last_registered s u t tk l1 l2 :
reachable s ->
log s = l1 ++ EvRegister t u :: l2 ->
forallb (fun e => negb (touches_registry u e)) l2 = true ->
tasks s !! t = Some tk -> done tk = false ->
cancel_target s u = Some t
/\ (forall t1, t1 <> t -> cancel_target s u <> Some t1)
/\ tasks (cancel_handler u s)
   = <[t := {| user_id := user_id tk; job := job tk; pc := pc tk;
               must_cancel := true |}]> (tasks s)
/\ log (cancel_handler u s) = log s ++ [EvTaskCancel u t; EvReply u TCancelled].
Proof.
intros Hr Hl Hl2 Ht Hd.
assert (Hreg : user_tasks (q s) !! u = Some t).
{ rewrite (reachable_registry_inv s Hr u), Hl, registered_by_log_app.
  simpl. destruct (decide (u = u)); [|contradiction].
  now apply registered_by_log_untouched. }
assert (Hc : cancel_target s u = Some t).
{ unfold cancel_target. now rewrite Hreg, Ht, Hd. }
split; [exact Hc|]. split; [intros t1 Hne; rewrite Hc; congruence|].
unfold cancel_handler. rewrite Hc. unfold request_cancel. rewrite Ht.
simpl. split; [reflexivity|]. now rewrite <- app_assoc.
Qed.

Lemma cancel_targets_last_registered_witness :
let s := examples.state_after examples.schedule_two_jobs in
let tk := {| user_id := 7; job := examples.job0; pc := AwaitGenerate;
             must_cancel := false |} in
let l1 := [EvSubmit 0 7; EvAcquireGlobal 0; EvAcquireUser 0 7;
           EvRegister 0 7; EvSendMessage 0 TGenerating;
           EvGenerateImage 0 examples.job0;
           EvSubmit 1 7; EvAcquireGlobal 1; EvAcquireUser 1 7] in
let l2 := [EvSendMessage 1 TGenerating; EvGenerateImage 1 examples.job0] in
(reachable s
 /\ log s = l1 ++ EvRegister 1 7 :: l2
 /\ forallb (fun e => negb (touches_registry 7 e)) l2 = true
 /\ tasks s !! 1 = Some tk /\ done tk = false)
/\ cancel_target s 7 = Some 1
/\ (forall t1, t1 <> 1 -> cancel_target s 7 <> Some t1)
/\ tasks (cancel_handler 7 s)
   = <[1 := {| user_id := 7; job := examples.job0; pc := AwaitGenerate;
               must_cancel := true |}]> (tasks s)
/\ log (cancel_handler 7 s) = log s ++ [EvTaskCancel 7 1; EvReply 7 TCancelled].
Proof.
intros s tk l1 l2.
assert (H1 : reachable s)
  by (exists examples.schedule_two_jobs; vm_compute; reflexivity).
assert (H2 : log s = l1 ++ EvRegister 1 7 :: l2) by reflexivity.
assert (H3 : forallb (fun e => negb (touches_registry 7 e)) l2 = true)
  by reflexivity.
assert (H4 : tasks s !! 1 = Some tk) by reflexivity.
assert (H5 : done tk = false) by reflexivity.
split; [repeat split; assumption|].
exact (cancel_targets_last_registered s 7 1 tk l1 l2 H1 H2 H3 H4 H5).
Defined.

(** C4, as stated, fails when the newer job is still waiting for a ticket:
  requester 7 has job 0 running, the other four global tickets are
  taken, requester 7 submits job 5, which cannot be admitted, and
  [/cancel] from requester 7 cancels job 0. *)
Lemma cancel_hits_older_job_while_newer_waits :
let s := examples.state_after examples.schedule_saturated in
run examples.schedule_saturated init = Some s
/\ tasks s !! 0 = Some {| user_id := 7; job := examples.job0;
                          pc := AwaitGenerate; must_cancel := false |}
/\ tasks s !! 5 = Some {| user_id := 7; job := examples.job0;
                          pc := AwaitGlobal; must_cancel := false |}
/\ position (EvSubmit 0 7) (log s) = Some 0
/\ position (EvSubmit 5 7) (log s) = Some 22
/\ step (Resume 5 Completed) s = None
/\ cancel_target s 7 = Some 0
/\ cancel_target s 7 <> Some 5.
Proof. vm_compute. repeat split. discriminate. Qed.




End HandlersFacts.

(** ** More on the orchestrator *)

Section LifecycleFacts.
Import queue handlers lifecycle.

(** Every way a resumed task can go on, one goal each. *)
Ltac resume_cases Hs Ht r :=
  match type of Ht with
  | tasks ?s !! ?t = Some ?tk =>
      cbn [step] in Hs; rewrite Ht in Hs;
      unfold _run_generation_task, input_of in Hs;
      destruct tk as [u j p mc]; cbn [pc must_cancel user_id job] in Hs;
      destruct p, mc, r; cbn in Hs;
      repeat match type of Hs with
             | match ?x with _ => _ end = Some _ =>
                 let E := fresh "E" in destruct x eqn:E; try discriminate
             end;
      try discriminate; injection Hs as <-;
      unfold goto, finally, _release_semaphores, emit, with_q;
      cbn [q tasks log]
  end.

Lemma admitted_stays tk p :
  (admitted tk || done tk) = true ->
  pc tk <> AwaitGlobal -> p <> AwaitGlobal -> p <> AwaitUser ->
  (admitted (at_pc tk p) || done (at_pc tk p)) = true.
Proof. intros _ _ H1 H2. unfold admitted, done, at_pc. cbn. now destruct p. Qed.

Lemma registry_wf_goto s t' tk' p st' l' :
  registry_wf s ->
  tasks s !! t' = Some tk' ->
  ((admitted tk' || done tk') = true ->
   (admitted (at_pc tk' p) || done (at_pc tk' p)) = true) ->
  (forall u t, user_tasks st' !! u = Some t ->
     user_tasks (q s) !! u = Some t
     \/ (u = user_id tk' /\ t = t'
         /\ (admitted (at_pc tk' p) || done (at_pc tk' p)) = true)) ->
  registry_wf {| q := st'; tasks := <[t' := at_pc tk' p]> (tasks s); log := l' |}.
Proof.
  intros I Ht' Hkeep Hreg u t Hu. cbn [q tasks] in *.
  assert (Hlt : t' < length (tasks s)) by (eapply lookup_lt_Some; exact Ht').
  destruct (Hreg u t Hu) as [Hold|(-> & -> & Hadm)].
  - destruct (I u t Hold) as (tk & Htk & Hid & Hadm).
    destruct (decide (t = t')) as [->|Hne].
    + rewrite Ht' in Htk. injection Htk as <-.
      exists (at_pc tk' p). rewrite list_lookup_insert_eq by exact Hlt.
      split; [reflexivity|]. split; [exact Hid|]. now apply Hkeep.
    + exists tk. rewrite list_lookup_insert_ne by congruence. auto.
  - exists (at_pc tk' p). rewrite list_lookup_insert_eq by exact Hlt. auto.
Qed.

Lemma cancel_wf_goto s t' tk' p st' l' :
  cancel_wf s -> tasks s !! t' = Some tk' ->
  cancel_wf {| q := st'; tasks := <[t' := at_pc tk' p]> (tasks s); log := l' |}.
Proof.
  intros I Ht' t tk Htk Hmc. cbn [tasks] in Htk.
  assert (Hlt : t' < length (tasks s)) by (eapply lookup_lt_Some; exact Ht').
  destruct (decide (t = t')) as [->|Hne].
  - rewrite list_lookup_insert_eq in Htk by exact Hlt.
    injection Htk as <-. discriminate Hmc.
  - rewrite list_lookup_insert_ne in Htk by congruence. eapply I; eauto.
Qed.

Lemma step_registry_cancel_wf a s s' :
  registry_wf s /\ cancel_wf s -> step a s = Some s' ->
  registry_wf s' /\ cancel_wf s'.
Proof.
  intros [IR IC] Hs. destruct a as [u j|t r|u].
  - (* Submit *)
    cbn in Hs. injection Hs as <-. split.
    + intros u0 t Hu. cbn [q tasks emit] in *.
      destruct (IR u0 t Hu) as (tk & Htk & H).
      exists tk. split; [|exact H]. now apply lookup_app_l_Some.
    + intros t tk Htk Hmc. cbn [tasks emit] in Htk.
      apply lookup_app_Some in Htk as [Htk|[_ Htk]]; [eapply IC; eauto|].
      destruct (t - length (tasks s)); [|now destruct n].
      cbn in Htk. injection Htk as <-. discriminate Hmc.
  - (* Resume *)
    destruct (tasks s !! t) as [tk|] eqn:Ht; [|cbn in Hs; rewrite Ht in Hs; discriminate].
    assert (Hnot : (admitted tk || done tk) = true -> pc tk <> AwaitGlobal /\ pc tk <> AwaitUser).
    { unfold admitted, done. destruct (pc tk); cbn; intros; split; congruence. }
    pose proof (IR) as IR'. pose proof IC as IC'.
    resume_cases Hs Ht r.
    all: split; [|eapply cancel_wf_goto; eauto].
    all: eapply registry_wf_goto; [exact IR | exact Ht | | ].
    all: try (intros Hadm; destruct (Hnot Hadm) as [N1 N2]; cbn in N1, N2;
              try congruence; reflexivity).
    all: cbn [user_tasks register pop set_user set_global release_user
                release_global user_id at_pc];
      rewrite ?user_tasks_get_user_semaphore; cbn [user_tasks set_global].
    all: intros u0 t0 Hu0; try (left; exact Hu0).
    all: try (left; apply lookup_delete_Some in Hu0; tauto).
    destruct (decide (u = u0)) as [->|Hne].
    + rewrite lookup_insert_eq in Hu0. injection Hu0 as <-. right. auto.
    + rewrite lookup_insert_ne in Hu0 by exact Hne. now left.
  - (* Cancel *)
    cbn in Hs. injection Hs as <-. unfold cancel_handler.
    destruct (cancel_target s u) as [t|] eqn:Hc; [|split; assumption].
    unfold cancel_target in Hc.
    destruct (user_tasks (q s) !! u) as [t0|] eqn:Hu; [|discriminate].
    destruct (tasks s !! t0) as [tk|] eqn:Ht; [|discriminate].
    destruct (done tk) eqn:Hd; [discriminate|]. injection Hc as <-.
    destruct (IR u t0 Hu) as (tk0 & Htk0 & Hid & Hadm).
    rewrite Ht in Htk0. injection Htk0 as <-. rewrite Hd, orb_false_r in Hadm.
    assert (Hlt : t0 < length (tasks s)) by (eapply lookup_lt_Some; exact Ht).
    unfold request_cancel. rewrite Ht. split.
    + intros u1 t1 Hu1. cbn [q tasks emit] in *.
      destruct (IR u1 t1 Hu1) as (tk1 & Htk1 & Hid1 & Hadm1).
      destruct (decide (t1 = t0)) as [->|Hne].
      * rewrite Ht in Htk1. injection Htk1 as <-.
        eexists. rewrite list_lookup_insert_eq by exact Hlt.
        split; [reflexivity|]. split; [exact Hid1|exact Hadm1].
      * exists tk1. rewrite list_lookup_insert_ne by congruence. auto.
    + intros t1 tk1 Htk1 Hmc. cbn [tasks emit] in Htk1.
      destruct (decide (t1 = t0)) as [->|Hne].
      * rewrite list_lookup_insert_eq in Htk1 by exact Hlt.
        injection Htk1 as <-. exact Hadm.
      * rewrite list_lookup_insert_ne in Htk1 by congruence. eapply IC; eauto.
Qed.

Lemma reachable_registry_cancel_wf s :
  reachable s -> registry_wf s /\ cancel_wf s.
Proof.
  intros [acts Hr].
  eapply (run_invariant (fun s => registry_wf s /\ cancel_wf s));
    [exact step_registry_cancel_wf | | exact Hr].
  split.
  - intros u t H. cbn in H. now rewrite lookup_empty in H.
  - intros t tk H. discriminate H.
Qed.


(** *** The requesters' semaphores *)

Lemma sem_get_user_semaphore_self u st :
  is_Some (_user_semaphores (get_user_semaphore u st) !! u).
Proof.
  unfold get_user_semaphore.
  destruct (_user_semaphores st !! u) eqn:E; cbn.
  - now rewrite E.
  - now rewrite lookup_insert_eq.
Qed.

Lemma sem_get_user_semaphore_keeps u st u' :
  is_Some (_user_semaphores st !! u') ->
  is_Some (_user_semaphores (get_user_semaphore u st) !! u').
Proof.
  intros H. unfold get_user_semaphore.
  destruct (_user_semaphores st !! u) eqn:E; cbn; [exact H|].
  destruct (decide (u = u')) as [->|Hne].
  - now rewrite lookup_insert_eq.
  - now rewrite lookup_insert_ne.
Qed.

Lemma sem_insert_keeps u (v : nat) (m : gmap Z nat) u' :
  is_Some (m !! u') -> is_Some (<[u := v]> m !! u').
Proof.
  intros H. destruct (decide (u = u')) as [->|Hne].
  - now rewrite lookup_insert_eq.
  - now rewrite lookup_insert_ne.
Qed.

Lemma sem_alter_keeps u (m : gmap Z nat) u' :
  is_Some (m !! u') -> is_Some (alter sem_release u m !! u').
Proof.
  intros [v H]. destruct (decide (u = u')) as [->|Hne].
  - rewrite lookup_alter_eq, H. now eexists.
  - rewrite lookup_alter_ne by exact Hne. now rewrite H.
Qed.

Lemma step_semaphore_persists a s s' uid :
  is_Some (_user_semaphores (q s) !! uid) -> step a s = Some s' ->
  is_Some (_user_semaphores (q s') !! uid).
Proof.
  intros H Hs. destruct a as [u0 j|t r|u0].
  - cbn in Hs. now injection Hs as <-.
  - destruct (tasks s !! t) as [tk|] eqn:Ht;
      [|cbn in Hs; rewrite Ht in Hs; discriminate].
    resume_cases Hs Ht r.
    all: cbn [_user_semaphores register pop set_user set_global release_user
                release_global]; try exact H.
    all: try (apply sem_alter_keeps; exact H).
    + apply sem_get_user_semaphore_keeps. exact H.
    + apply sem_insert_keeps. exact H.
  - cbn in Hs. injection Hs as <-. unfold cancel_handler.
    destruct (cancel_target s u0); cbn; [|exact H].
    unfold request_cancel. now destruct (tasks s !! n).
Qed.

Lemma step_semaphores_wf a s s' :
  semaphores_wf s -> step a s = Some s' -> semaphores_wf s'.
Proof.
  intros I Hs t tk Htk Hh.
  assert (Hkeep : forall u, is_Some (_user_semaphores (q s) !! u) ->
                            is_Some (_user_semaphores (q s') !! u))
    by (intros u Hu; eapply step_semaphore_persists; eauto).
  destruct a as [u0 j|t' r|u0].
  - cbn in Hs. injection Hs as <-. cbn [q tasks emit] in *.
    apply lookup_app_Some in Htk as [Htk|[_ Htk]]; [eapply I; eauto|].
    destruct (t - length (tasks s)); [|now destruct n].
    cbn in Htk. injection Htk as <-. discriminate Hh.
  - destruct (tasks s !! t') as [tk'|] eqn:Ht';
      [|cbn in Hs; rewrite Ht' in Hs; discriminate].
    assert (Hlt : t' < length (tasks s)) by (eapply lookup_lt_Some; exact Ht').
    destruct (decide (t = t')) as [->|Hne].
    + pose proof (I t' tk' Ht') as I'.
      resume_cases Hs Ht' r.
      all: unfold goto, finally, _release_semaphores, emit, with_q in Htk;
        cbn [q tasks log] in Htk;
        rewrite list_lookup_insert_eq in Htk by exact Hlt;
        injection Htk as <-; cbn [user_id at_pc] in *.
      all: try discriminate Hh.
      all: try (apply Hkeep; apply I'; reflexivity).
      cbn [q]. apply sem_get_user_semaphore_self.
    + assert (Hold : tasks s !! t = Some tk).
      { revert Htk. resume_cases Hs Ht' r.
        all: cbn [tasks]; rewrite list_lookup_insert_ne by congruence; auto. }
      apply Hkeep. eapply I; eauto.
  - apply Hkeep. cbn in Hs. injection Hs as <-. unfold cancel_handler in Htk.
    destruct (cancel_target s u0); cbn [tasks emit] in Htk;
      [|eapply I; eauto].
    unfold request_cancel in Htk.
    destruct (tasks s !! n) as [tk0|] eqn:Hn; [|eapply I; eauto].
    cbn [tasks] in Htk.
    destruct (decide (t = n)) as [->|Hne].
    * rewrite list_lookup_insert_eq in Htk by (eapply lookup_lt_Some; exact Hn).
      injection Htk as <-. eapply (I n tk0 Hn). exact Hh.
    * rewrite list_lookup_insert_ne in Htk by congruence. eapply I; eauto.
Qed.

Lemma reachable_semaphores_wf s : reachable s -> semaphores_wf s.
Proof.
  intros [acts Hr].
  eapply (run_invariant semaphores_wf); [exact step_semaphores_wf | | exact Hr].
  intros t tk H. discriminate H.
Qed.

(** What the [finally] clause does to the counters and to the registry,
    for a requester whose semaphore exists. *)
Lemma cleanup_counters u st :
  is_Some (_user_semaphores st !! u) ->
  let st' := pop u (release_global (release_user u st)) in
  global_semaphore st' = S (global_semaphore st)
  /\ user_semaphore_value st' u = S (user_semaphore_value st u)
  /\ user_tasks st' = delete u (user_tasks st).
Proof.
  intros [v Hv] st'. split; [reflexivity|]. split; [|reflexivity].
  change (user_semaphore_value st' u)
    with (user_semaphore_value (release_user u st) u).
  rewrite usv_release_user_eq, Hv. unfold user_semaphore_value.
  now rewrite Hv.
Qed.

(** C5 (as amended). When [generate_image] raises, the job goes to its
  [except] clause with nothing released yet and the other tasks untouched.
  From there the job ends at its next step, however the last edit of the
  placeholder ends, and gives back what it took: both counters go up by
  one and the registry entry is removed. Only when that edit goes through
  is the failure text carrying the exception shown, as the only message,
  and does the coroutine return normally. When the edit raises, or the
  job is cancelled meanwhile, nothing is shown, and the exception of the
  edit, or the cancellation, leaves the coroutine. *)
Theorem backend_failure_cleans_up_and_reports_when_edit_completes s t tk e :
tasks s !! t = Some tk -> pc tk = AwaitGenerate -> must_cancel tk = false ->
exists s1,
  step (Resume t (Failed e)) s = Some s1
  /\ q s1 = q s
  /\ tasks s1 = <[t := at_pc tk (AwaitEditFail e)]> (tasks s)
  /\ log s1 = log s ++ [EvLogException t e]
  /\ forall s1' tk1 r,
       reachable s1' ->
       tasks s1' !! t = Some tk1 -> pc tk1 = AwaitEditFail e ->
       exists s2 o shown,
         step (Resume t r) s1' = Some s2
         /\ tasks s2 = <[t := at_pc tk1 (Finished o)]> (tasks s1')
         /\ global_semaphore (q s2) = S (global_semaphore (q s1'))
         /\ user_semaphore_value (q s2) (user_id tk1)
            = S (user_semaphore_value (q s1') (user_id tk1))
         /\ user_tasks (q s2) = delete (user_id tk1) (user_tasks (q s1'))
         /\ log s2 = log s1' ++ shown
                     ++ [EvReleaseUser t (user_id tk1); EvReleaseGlobal t;
                         EvPop t (user_id tk1)]
         /\ (must_cancel tk1 = false -> r = Completed ->
             o = Returned /\ shown = [EvEditText t (TFailed e)])
         /\ (must_cancel tk1 = false -> forall e', r = Failed e' ->
             o = Raised e' /\ shown = [])
         /\ (must_cancel tk1 = true -> o = Cancelled /\ shown = []).
Proof.
intros Ht Hpc Hmc.
eexists. split.
{ cbn [step]. rewrite Ht. unfold _run_generation_task, input_of.
  rewrite Hpc, Hmc. reflexivity. }
split; [reflexivity|]. split; [reflexivity|]. split; [reflexivity|].
intros s1' tk1 r Hr Ht1 Hpc1.
assert (Hh : holds_global tk1 = true)
  by (unfold holds_global, admitted; now rewrite Hpc1).
destruct (cleanup_counters (user_id tk1) (q s1')
            (reachable_semaphores_wf s1' Hr t tk1 Ht1 Hh)) as (Cg & Cu & Cr).
cbn [step]. rewrite Ht1. unfold _run_generation_task, input_of.
rewrite Hpc1.
destruct (must_cancel tk1) eqn:Hmc1; [|destruct r as [|e']].
- exists (goto t tk1 (Finished Cancelled) (finally t (user_id tk1) s1')),
    Cancelled, [].
  split; [reflexivity|]. split; [reflexivity|].
  split; [exact Cg|]. split; [exact Cu|]. split; [exact Cr|].
  split. { unfold goto, finally, _release_semaphores, emit, with_q. cbn [log].
           now rewrite <- !app_assoc. }
  split; [discriminate|]. split; [discriminate|]. auto.
- exists (goto t tk1 (Finished Returned)
            (finally t (user_id tk1) (emit (EvEditText t (TFailed e)) s1'))),
    Returned, [EvEditText t (TFailed e)].
  split; [reflexivity|]. split; [reflexivity|].
  split; [exact Cg|]. split; [exact Cu|]. split; [exact Cr|].
  split. { unfold goto, finally, _release_semaphores, emit, with_q. cbn [log].
           now rewrite <- !app_assoc. }
  split; [auto|]. split; [|discriminate]. intros _ e' He'. discriminate He'.
- exists (goto t tk1 (Finished (Raised e')) (finally t (user_id tk1) s1')),
    (Raised e'), [].
  split; [reflexivity|]. split; [reflexivity|].
  split; [exact Cg|]. split; [exact Cu|]. split; [exact Cr|].
  split. { unfold goto, finally, _release_semaphores, emit, with_q. cbn [log].
           now rewrite <- !app_assoc. }
  split; [intros _ H; discriminate H|]. split; [|discriminate].
  intros _ e'' [= <-]. auto.
Qed.

Lemma backend_failure_cleans_up_and_reports_when_edit_completes_witness :
let s := examples.state_after examples.schedule_dispatched in
let tk := {| user_id := 7; job := examples.job0; pc := AwaitGenerate;
             must_cancel := false |} in
let e := lit "CUDA out of memory" in
(tasks s !! 0 = Some tk /\ pc tk = AwaitGenerate /\ must_cancel tk = false)
/\ exists s1,
     step (Resume 0 (Failed e)) s = Some s1
     /\ q s1 = q s
     /\ tasks s1 = <[0 := at_pc tk (AwaitEditFail e)]> (tasks s)
     /\ log s1 = log s ++ [EvLogException 0 e]
     /\ forall s1' tk1 r,
          reachable s1' ->
          tasks s1' !! 0 = Some tk1 -> pc tk1 = AwaitEditFail e ->
          exists s2 o shown,
            step (Resume 0 r) s1' = Some s2
            /\ tasks s2 = <[0 := at_pc tk1 (Finished o)]> (tasks s1')
            /\ global_semaphore (q s2) = S (global_semaphore (q s1'))
            /\ user_semaphore_value (q s2) (user_id tk1)
               = S (user_semaphore_value (q s1') (user_id tk1))
            /\ user_tasks (q s2) = delete (user_id tk1) (user_tasks (q s1'))
            /\ log s2 = log s1' ++ shown
                        ++ [EvReleaseUser 0 (user_id tk1); EvReleaseGlobal 0;
                            EvPop 0 (user_id tk1)]
            /\ (must_cancel tk1 = false -> r = Completed ->
                o = Returned /\ shown = [EvEditText 0 (TFailed e)])
            /\ (must_cancel tk1 = false -> forall e', r = Failed e' ->
                o = Raised e' /\ shown = [])
            /\ (must_cancel tk1 = true -> o = Cancelled /\ shown = []).
Proof.
intros s tk e.
split; [repeat split; reflexivity|].
exact (backend_failure_cleans_up_and_reports_when_edit_completes s 0 tk e
         eq_refl eq_refl eq_refl).
Defined.

(** C5, as stated, fails when the edit that carries the failure text
  raises too: [generate_image] raises "CUDA out of memory", then
  [edit_text] raises "Timed out". The job ends with the exception of the
  edit leaving the coroutine, and the requester is shown nothing after
  the placeholder: the log holds no edit and no failure text. *)
Lemma backend_failure_notice_fails_and_edit_error_escapes :
let s := examples.state_after examples.schedule_failure_notice_fails in
run examples.schedule_failure_notice_fails init = Some s
/\ pc <$> tasks s = [Finished (Raised (lit "Timed out"))]
/\ pc <$> tasks s <> [Finished Returned]
/\ edits 0 (log s) = 0
/\ log s = [EvSubmit 0 7; EvAcquireGlobal 0; EvAcquireUser 0 7;
            EvRegister 0 7; EvSendMessage 0 TGenerating;
            EvGenerateImage 0 examples.job0;
            EvLogException 0 (lit "CUDA out of memory");
            EvReleaseUser 0 7; EvReleaseGlobal 0; EvPop 0 7].
Proof. vm_compute. repeat split; discriminate. Qed.


(** X1. The semaphores are never released more often than they were
    acquired: in every reachable state the global counter is at most
    [MAX_GLOBAL_CONCURRENT] and every requester's counter at most
    [MAX_PER_USER], although [asyncio.Semaphore] itself has no upper
    bound. *)
Theorem counters_never_exceed_limits s :
  reachable s ->
  global_semaphore (q s) <= MAX_GLOBAL_CONCURRENT
  /\ forall usr, user_semaphore_value (q s) usr <= MAX_PER_USER.
Proof.
  intros Hr. destruct (reachable_capacity_inv s Hr) as [Ig Iu].
  split; [lia|]. intros usr. specialize (Iu usr). lia.
Qed.

Lemma counters_never_exceed_limits_witness :
  let s := examples.state_after examples.schedule_success in
  reachable s
  /\ global_semaphore (q s) = 5
  /\ global_semaphore (q s) <= MAX_GLOBAL_CONCURRENT
  /\ forall usr, user_semaphore_value (q s) usr <= MAX_PER_USER.
Proof.
  intros s.
  assert (Hr : reachable s)
    by (exists examples.schedule_success; vm_compute; reflexivity).
  split; [exact Hr|]. split; [reflexivity|].
  exact (counters_never_exceed_limits s Hr).
Defined.

(** X2. A job that ends inside the [try] statement gives back exactly what
    it took: in that one step the global counter and its requester's
    counter each go up by one, no other requester's counter moves, the
    requester's registry entry is removed, no other task is touched, and
    the log gains one release of each ticket and one removal. *)
Theorem exit_inside_try_returns_both_tickets s t tk r s' tk' :
  reachable s ->
  tasks s !! t = Some tk -> in_try tk = true ->
  step (Resume t r) s = Some s' ->
  tasks s' !! t = Some tk' -> done tk' = true ->
  global_semaphore (q s') = S (global_semaphore (q s))
  /\ user_semaphore_value (q s') (user_id tk)
     = S (user_semaphore_value (q s) (user_id tk))
  /\ (forall usr, usr <> user_id tk ->
        user_semaphore_value (q s') usr = user_semaphore_value (q s) usr)
  /\ user_tasks (q s') = delete (user_id tk) (user_tasks (q s))
  /\ (forall t0, t0 <> t -> tasks s' !! t0 = tasks s !! t0)
  /\ exists added,
       log s' = log s ++ added
       /\ List.filter is_cleanup added
          = [EvReleaseUser t (user_id tk); EvReleaseGlobal t;
             EvPop t (user_id tk)].
Proof.
  intros Hr Ht Htry Hs Ht' Hd.
  destruct (finishing_step_in_try s t tk r s' tk' Ht Htry Hs Ht' Hd)
    as (o & pre & Hq & Htasks & Hlog & Hpre).
  assert (Hh : holds_global tk = true).
  { unfold holds_global, admitted, in_try in *. now destruct (pc tk). }
  destruct (reachable_semaphores_wf s Hr t tk Ht Hh) as [v Hv].
  rewrite Hq, Htasks, Hlog. cbn [global_semaphore pop release_global set_global
                                   user_tasks release_user].
  split; [reflexivity|]. split.
  { change (user_semaphore_value
              (pop (user_id tk) (release_global (release_user (user_id tk) (q s))))
              (user_id tk))
      with (user_semaphore_value (release_user (user_id tk) (q s)) (user_id tk)).
    rewrite usv_release_user_eq, Hv. unfold user_semaphore_value.
    now rewrite Hv. }
  split.
  { intros usr Hne.
    change (user_semaphore_value
              (pop (user_id tk) (release_global (release_user (user_id tk) (q s))))
              usr)
      with (user_semaphore_value (release_user (user_id tk) (q s)) usr).
    apply usv_release_user_ne. congruence. }
  split; [reflexivity|]. split.
  { intros t0 Hne. apply list_lookup_insert_ne. congruence. }
  eexists. split; [reflexivity|].
  destruct Hpre as [->|[txt ->]]; reflexivity.
Qed.

Lemma exit_inside_try_returns_both_tickets_witness :
  let s := examples.state_after
             (examples.schedule_dispatched
              ++ [Resume 0 Completed; Resume 0 Completed]) in
  let s' := examples.state_after examples.schedule_success in
  let tk := {| user_id := 7; job := examples.job0; pc := AwaitEditOk;
               must_cancel := false |} in
  let tk' := {| user_id := 7; job := examples.job0; pc := Finished Returned;
                must_cancel := false |} in
  (reachable s /\ tasks s !! 0 = Some tk /\ in_try tk = true
   /\ step (Resume 0 Completed) s = Some s'
   /\ tasks s' !! 0 = Some tk' /\ done tk' = true)
  /\ global_semaphore (q s') = S (global_semaphore (q s))
  /\ user_semaphore_value (q s') 7 = S (user_semaphore_value (q s) 7)
  /\ (forall usr, usr <> 7%Z ->
        user_semaphore_value (q s') usr = user_semaphore_value (q s) usr)
  /\ user_tasks (q s') = delete 7%Z (user_tasks (q s))
  /\ (forall t0, t0 <> 0 -> tasks s' !! t0 = tasks s !! t0)
  /\ exists added,
       log s' = log s ++ added
       /\ List.filter is_cleanup added
          = [EvReleaseUser 0 7; EvReleaseGlobal 0; EvPop 0 7].
Proof.
  intros s s' tk tk'.
  assert (H0 : reachable s)
    by (exists (examples.schedule_dispatched
                ++ [Resume 0 Completed; Resume 0 Completed]);
        vm_compute; reflexivity).
  assert (H1 : tasks s !! 0 = Some tk) by reflexivity.
  assert (H2 : in_try tk = true) by reflexivity.
  assert (H3 : step (Resume 0 Completed) s = Some s')
    by (vm_compute; reflexivity).
  assert (H4 : tasks s' !! 0 = Some tk') by reflexivity.
  assert (H5 : done tk' = true) by reflexivity.
  split; [repeat split; assumption|].
  exact (exit_inside_try_returns_both_tickets s 0 tk Completed s' tk'
           H0 H1 H2 H3 H4 H5).
Defined.

Lemma step_keeps_finished a s s' t tk :
  tasks s !! t = Some tk -> done tk = true -> step a s = Some s' ->
  tasks s' !! t = Some tk.
Proof.
  intros Ht Hd Hs. destruct a as [u0 j|t' r|u0].
  - cbn in Hs. injection Hs as <-. cbn. now apply lookup_app_l_Some.
  - destruct (tasks s !! t') as [tk'|] eqn:Ht';
      [|cbn in Hs; rewrite Ht' in Hs; discriminate].
    destruct (decide (t = t')) as [->|Hne].
    + rewrite Ht in Ht'. injection Ht' as <-.
      cbn in Hs. rewrite Ht in Hs. unfold _run_generation_task in Hs.
      unfold done in Hd. destruct (pc tk); try discriminate Hd.
      now destruct (input_of tk r).
    + resume_cases Hs Ht' r.
      all: apply eq_trans with (tasks s !! t); [|exact Ht].
      all: apply list_lookup_insert_ne; congruence.
  - cbn in Hs. injection Hs as <-. unfold cancel_handler, cancel_target.
    destruct (user_tasks (q s) !! u0) as [t0|]; [|exact Ht].
    destruct (tasks s !! t0) as [tk0|] eqn:Ht0; [|exact Ht].
    destruct (done tk0) eqn:Hd0; [exact Ht|].
    cbn. unfold request_cancel. rewrite Ht0. cbn.
    rewrite list_lookup_insert_ne; [exact Ht|].
    intros ->. rewrite Ht in Ht0. injection Ht0 as ->. congruence.
Qed.

(** X3. The end of a coroutine is final: whatever the process does
    afterwards, a finished task keeps its outcome, is never marked for
    cancellation, and cannot be resumed. *)
Theorem finished_task_is_final s t tk acts s' :
  tasks s !! t = Some tk -> done tk = true ->
  run acts s = Some s' ->
  tasks s' !! t = Some tk /\ forall r, step (Resume t r) s' = None.
Proof.
  intros Ht Hd Hr.
  assert (H : tasks s' !! t = Some tk).
  { eapply (run_invariant (fun s0 => tasks s0 !! t = Some tk));
      [|exact Ht|exact Hr].
    intros a s0 s1 H0 Hs. eapply step_keeps_finished; eauto. }
  split; [exact H|]. intros r. cbn. rewrite H.
  unfold _run_generation_task. unfold done in Hd.
  destruct (pc tk); try discriminate Hd. now destruct (input_of tk r).
Qed.

Lemma finished_task_is_final_witness :
  let s := examples.state_after examples.schedule_cancel_at_placeholder in
  let tk := {| user_id := 7; job := examples.job0; pc := Finished Cancelled;
               must_cancel := false |} in
  let acts := [Cancel 7; Submit 7 examples.job0; Resume 1 Completed] in
  let s' := default s (run acts s) in
  (tasks s !! 0 = Some tk /\ done tk = true /\ run acts s = Some s')
  /\ tasks s' !! 0 = Some tk /\ forall r, step (Resume 0 r) s' = None.
Proof.
  intros s tk acts s'.
  assert (H1 : tasks s !! 0 = Some tk) by reflexivity.
  assert (H2 : done tk = true) by reflexivity.
  assert (H3 : run acts s = Some s') by (vm_compute; reflexivity).
  split; [repeat split; assumption|].
  exact (finished_task_is_final s 0 tk acts s' H1 H2 H3).
Defined.


(** X4. The registry only ever names jobs that got past
    [_acquire_semaphores]: in every reachable state an entry of
    [user_tasks] points to an existing task of that same requester which is
    admitted or already finished, never to a task still waiting for a
    ticket and never to another requester's task. *)
Theorem registry_names_own_admitted_task s usr t :
  reachable s -> user_tasks (q s) !! usr = Some t ->
  exists tk, tasks s !! t = Some tk /\ user_id tk = usr
             /\ pc tk <> AwaitGlobal /\ pc tk <> AwaitUser.
Proof.
  intros Hr Hu.
  destruct (reachable_registry_cancel_wf s Hr) as [IR _].
  destruct (IR usr t Hu) as (tk & Htk & Hid & Hadm).
  exists tk. split; [exact Htk|]. split; [exact Hid|].
  unfold admitted, done in Hadm.
  destruct (pc tk); cbn in Hadm; split; congruence.
Qed.

Lemma registry_names_own_admitted_task_witness :
  let s := examples.state_after examples.schedule_saturated in
  (reachable s /\ user_tasks (q s) !! 7%Z = Some 0)
  /\ exists tk, tasks s !! 0 = Some tk /\ user_id tk = 7%Z
                /\ pc tk <> AwaitGlobal /\ pc tk <> AwaitUser.
Proof.
  intros s.
  assert (H1 : reachable s)
    by (exists examples.schedule_saturated; vm_compute; reflexivity).
  assert (H2 : user_tasks (q s) !! 7%Z = Some 0) by (vm_compute; reflexivity).
  split; [split; assumption|].
  exact (registry_names_own_admitted_task s 7 0 H1 H2).
Defined.

(** X5. [/cancel] reaches only the caller's own job: in every reachable
    state [cancel_handler] leaves the semaphores and the registry as they
    are, changes no task's place, requester or arguments, and sets the
    cancellation mark on no task other than an admitted, unfinished task
    of the calling requester. *)
Theorem cancel_marks_only_own_admitted_job s usr t tk' :
  reachable s ->
  tasks (cancel_handler usr s) !! t = Some tk' ->
  q (cancel_handler usr s) = q s
  /\ exists tk,
       tasks s !! t = Some tk
       /\ user_id tk' = user_id tk /\ job tk' = job tk /\ pc tk' = pc tk
       /\ (must_cancel tk' = must_cancel tk
           \/ (user_id tk = usr /\ admitted tk = true /\ done tk = false
               /\ must_cancel tk' = true)).
Proof.
  intros Hr Ht.
  destruct (reachable_registry_cancel_wf s Hr) as [IR _].
  unfold cancel_handler in *.
  destruct (cancel_target s usr) as [t0|] eqn:Hc.
  - unfold cancel_target in Hc.
    destruct (user_tasks (q s) !! usr) as [t1|] eqn:Hu; [|discriminate].
    destruct (tasks s !! t1) as [tk1|] eqn:Ht1; [|discriminate].
    destruct (done tk1) eqn:Hd; [discriminate|]. injection Hc as <-.
    destruct (IR usr t1 Hu) as (tk0 & Htk0 & Hid & Hadm).
    rewrite Ht1 in Htk0. injection Htk0 as <-.
    rewrite Hd, orb_false_r in Hadm.
    unfold request_cancel in *. rewrite Ht1 in *. cbn [q tasks emit] in *.
    split; [reflexivity|].
    destruct (decide (t = t1)) as [->|Hne].
    + rewrite list_lookup_insert_eq in Ht
        by (eapply lookup_lt_Some; exact Ht1).
      injection Ht as <-. exists tk1. cbn. repeat split; auto.
    + rewrite list_lookup_insert_ne in Ht by congruence.
      exists tk'. repeat split; auto.
  - cbn [q tasks emit] in *. split; [reflexivity|].
    exists tk'. repeat split; auto.
Qed.

Lemma cancel_marks_only_own_admitted_job_witness :
  let s := examples.state_after examples.schedule_saturated in
  let tk' := {| user_id := 7; job := examples.job0; pc := AwaitGenerate;
                must_cancel := true |} in
  (reachable s /\ tasks (cancel_handler 7 s) !! 0 = Some tk')
  /\ q (cancel_handler 7 s) = q s
  /\ exists tk,
       tasks s !! 0 = Some tk
       /\ user_id tk' = user_id tk /\ job tk' = job tk /\ pc tk' = pc tk
       /\ (must_cancel tk' = must_cancel tk
           \/ (user_id tk = 7%Z /\ admitted tk = true /\ done tk = false
               /\ must_cancel tk' = true)).
Proof.
  intros s tk'.
  assert (H1 : reachable s)
    by (exists examples.schedule_saturated; vm_compute; reflexivity).
  assert (H2 : tasks (cancel_handler 7 s) !! 0 = Some tk')
    by (vm_compute; reflexivity).
  split; [split; assumption|].
  exact (cancel_marks_only_own_admitted_job s 7 0 tk' H1 H2).
Defined.

(** X6. No [CancelledError] is ever thrown into [_acquire_semaphores]: in
    every reachable state a task that still waits for the global or for
    its requester's ticket has no cancellation pending, so resuming it can
    only take the ticket and move on; the ticket already taken while
    waiting for the second one cannot be lost to [/cancel]. *)
Theorem no_cancellation_while_acquiring s t tk r s' :
  reachable s -> tasks s !! t = Some tk ->
  pc tk = AwaitGlobal \/ pc tk = AwaitUser ->
  step (Resume t r) s = Some s' ->
  must_cancel tk = false
  /\ r = Completed
  /\ ((pc tk = AwaitGlobal
       /\ tasks s' !! t = Some (at_pc tk AwaitUser)
       /\ S (global_semaphore (q s')) = global_semaphore (q s))
      \/ (pc tk = AwaitUser
          /\ tasks s' !! t = Some (at_pc tk AwaitProgress)
          /\ global_semaphore (q s') = global_semaphore (q s)
          /\ S (user_semaphore_value (q s') (user_id tk))
             = user_semaphore_value (q s) (user_id tk)
          /\ user_tasks (q s') !! user_id tk = Some t)).
Proof.
  intros Hr Ht Hpc Hs.
  destruct (reachable_registry_cancel_wf s Hr) as [_ IC].
  assert (Hmc : must_cancel tk = false).
  { destruct (must_cancel tk) eqn:E; [|reflexivity].
    pose proof (IC t tk Ht E) as Ha. unfold admitted in Ha.
    destruct Hpc as [Hp|Hp]; rewrite Hp in Ha; discriminate. }
  assert (Hlt : t < length (tasks s)) by (eapply lookup_lt_Some; exact Ht).
  split; [exact Hmc|].
  cbn in Hs. rewrite Ht in Hs. unfold _run_generation_task, input_of in Hs.
  rewrite Hmc in Hs.
  destruct Hpc as [Hp|Hp]; rewrite Hp in Hs; destruct r; try discriminate Hs.
  - split; [reflexivity|]. left. split; [exact Hp|].
    destruct (sem_acquire (global_semaphore (q s))) eqn:E; [|discriminate].
    injection Hs as <-. apply sem_acquire_Some in E.
    unfold goto, emit, with_q. cbn [q tasks log].
    rewrite list_lookup_insert_eq by exact Hlt.
    rewrite global_get_user_semaphore. cbn. auto.
  - split; [reflexivity|]. right. split; [exact Hp|].
    destruct (_user_semaphores (q s) !! user_id tk) as [v|] eqn:Ev;
      [|discriminate].
    destruct (sem_acquire v) eqn:E; [|discriminate].
    injection Hs as <-. apply sem_acquire_Some in E. subst v.
    unfold goto, emit, with_q. cbn [q tasks log].
    rewrite list_lookup_insert_eq by exact Hlt.
    split; [reflexivity|]. split; [reflexivity|]. split.
    + change (user_semaphore_value
                (register (user_id tk) t (set_user (user_id tk) n (q s)))
                (user_id tk))
        with (user_semaphore_value (set_user (user_id tk) n (q s)) (user_id tk)).
      rewrite usv_set_user. destruct (decide (user_id tk = user_id tk));
        [|contradiction].
      unfold user_semaphore_value. now rewrite Ev.
    + cbn. apply lookup_insert_eq.
Qed.

Lemma no_cancellation_while_acquiring_witness :
  let s := examples.state_after [Submit 7 examples.job0; Resume 0 Completed] in
  let s' := examples.state_after
              [Submit 7 examples.job0; Resume 0 Completed; Resume 0 Completed] in
  let tk := {| user_id := 7; job := examples.job0; pc := AwaitUser;
               must_cancel := false |} in
  (reachable s /\ tasks s !! 0 = Some tk
   /\ (pc tk = AwaitGlobal \/ pc tk = AwaitUser)
   /\ step (Resume 0 Completed) s = Some s')
  /\ must_cancel tk = false
  /\ Completed = Completed
  /\ ((pc tk = AwaitGlobal
       /\ tasks s' !! 0 = Some (at_pc tk AwaitUser)
       /\ S (global_semaphore (q s')) = global_semaphore (q s))
      \/ (pc tk = AwaitUser
          /\ tasks s' !! 0 = Some (at_pc tk AwaitProgress)
          /\ global_semaphore (q s') = global_semaphore (q s)
          /\ S (user_semaphore_value (q s') (user_id tk))
             = user_semaphore_value (q s) (user_id tk)
          /\ user_tasks (q s') !! user_id tk = Some 0)).
Proof.
  intros s s' tk.
  assert (H1 : reachable s)
    by (exists [Submit 7 examples.job0; Resume 0 Completed];
        vm_compute; reflexivity).
  assert (H2 : tasks s !! 0 = Some tk) by reflexivity.
  assert (H3 : pc tk = AwaitGlobal \/ pc tk = AwaitUser) by (right; reflexivity).
  assert (H4 : step (Resume 0 Completed) s = Some s')
    by (vm_compute; reflexivity).
  split; [repeat split; assumption|].
  exact (no_cancellation_while_acquiring s 0 tk Completed s' H1 H2 H3 H4).
Defined.


(** X7. [/cancel] from a requester who has no admitted job is a no-op: in
    every reachable state where none of the requester's tasks is admitted
    (none submitted, all still waiting for a ticket, or all finished),
    [cancel_handler] only answers that there is nothing to cancel. *)
Theorem cancel_without_admitted_job_changes_nothing s usr :
  reachable s ->
  (forall t tk, tasks s !! t = Some tk -> user_id tk = usr ->
                admitted tk = false) ->
  cancel_handler usr s = emit (EvReply usr TNoActive) s.
Proof.
  intros Hr Hnone.
  destruct (reachable_registry_cancel_wf s Hr) as [IR _].
  unfold cancel_handler, cancel_target.
  destruct (user_tasks (q s) !! usr) as [t|] eqn:Hu; [|reflexivity].
  destruct (IR usr t Hu) as (tk & Htk & Hid & Hadm).
  rewrite Htk. rewrite (Hnone t tk Htk Hid) in Hadm. cbn in Hadm.
  now rewrite Hadm.
Qed.

Lemma cancel_without_admitted_job_changes_nothing_witness :
  let s := examples.state_after examples.schedule_placeholder_fails in
  (reachable s
   /\ user_tasks (q s) !! 7%Z = Some 0
   /\ forall t tk, tasks s !! t = Some tk -> user_id tk = 7%Z ->
                   admitted tk = false)
  /\ cancel_handler 7 s = emit (EvReply 7 TNoActive) s.
Proof.
  intros s.
  assert (H1 : reachable s)
    by (exists examples.schedule_placeholder_fails; vm_compute; reflexivity).
  assert (H2 : forall t tk, tasks s !! t = Some tk -> user_id tk = 7%Z ->
                            admitted tk = false).
  { intros t tk H _. destruct t as [|t].
    - cbn in H. injection H as <-. reflexivity.
    - destruct t; discriminate H. }
  split; [split; [exact H1|split; [vm_compute; reflexivity|exact H2]]|].
  exact (cancel_without_admitted_job_changes_nothing s 7 H1 H2).
Defined.

(** X8. Once admitted, a job never waits for a ticket again and takes no
    further one: however the call it awaits ends, the task can be resumed;
    it stays admitted or ends, and unless it ends the semaphores and the
    registry are left as they are. *)
Theorem admitted_task_never_waits s t tk r :
  tasks s !! t = Some tk -> admitted tk = true ->
  exists s' tk',
    step (Resume t r) s = Some s'
    /\ tasks s' !! t = Some tk'
    /\ (admitted tk' || done tk') = true
    /\ (done tk' = false -> q s' = q s).
Proof.
  intros Ht Ha.
  assert (Hlt : t < length (tasks s)) by (eapply lookup_lt_Some; exact Ht).
  cbn [step]. rewrite Ht. unfold _run_generation_task, input_of.
  destruct tk as [u j p mc]. unfold admitted in Ha. cbn [pc must_cancel] in *.
  destruct p; try discriminate Ha; destruct mc, r; cbn.
  all: eexists; eexists; split; [reflexivity|].
  all: unfold goto, finally, _release_semaphores, emit, with_q; cbn [q tasks log].
  all: rewrite list_lookup_insert_eq by exact Hlt.
  all: split; [reflexivity|]; split; [reflexivity|].
  all: cbn; intros; try discriminate; reflexivity.
Qed.

Lemma admitted_task_never_waits_witness :
  let s := examples.state_after examples.schedule_saturated in
  let tk := {| user_id := 7; job := examples.job0; pc := AwaitGenerate;
               must_cancel := false |} in
  (tasks s !! 0 = Some tk /\ admitted tk = true)
  /\ exists s' tk',
       step (Resume 0 (Failed (lit "out of memory"))) s = Some s'
       /\ tasks s' !! 0 = Some tk'
       /\ (admitted tk' || done tk') = true
       /\ (done tk' = false -> q s' = q s).
Proof.
  intros s tk.
  assert (H1 : tasks s !! 0 = Some tk) by reflexivity.
  assert (H2 : admitted tk = true) by reflexivity.
  split; [split; assumption|].
  exact (admitted_task_never_waits s 0 tk (Failed (lit "out of memory")) H1 H2).
Defined.

(** *** Edits of the placeholder message *)

Lemma edits_app t l1 l2 : edits t (l1 ++ l2) = edits t l1 + edits t l2.
Proof. unfold edits. now rewrite List.filter_app, length_app. Qed.

Lemma edits_wf_goto s t' tk' p st' evs :
  edits_wf s -> tasks s !! t' = Some tk' -> returned tk' = false ->
  (forall t0, t0 <> t' -> edits t0 evs = 0) ->
  edits t' evs <= b2n (returned (at_pc tk' p)) ->
  edits_wf {| q := st'; tasks := <[t' := at_pc tk' p]> (tasks s);
              log := log s ++ evs |}.
Proof.
  intros I Ht' Hnr Hother Hself t0. specialize (I t0). cbn [tasks log].
  rewrite edits_app.
  destruct (decide (t0 = t')) as [->|Hne].
  - rewrite list_lookup_insert_eq by (eapply lookup_lt_Some; exact Ht').
    rewrite Ht', Hnr in I. cbn in I. lia.
  - rewrite list_lookup_insert_ne by congruence.
    rewrite (Hother t0 Hne). lia.
Qed.

Lemma step_edits_wf a s s' : edits_wf s -> step a s = Some s' -> edits_wf s'.
Proof.
  intros I Hs. destruct a as [u0 j|t r|u0].
  - cbn in Hs. injection Hs as <-. intros t0. specialize (I t0).
    cbn [tasks log emit]. rewrite edits_app.
    change (edits t0 [EvSubmit (length (tasks s)) u0]) with 0.
    destruct (tasks s !! t0) as [tk|] eqn:E.
    + rewrite (lookup_app_l_Some _ _ _ _ E). lia.
    + destruct ((tasks s ++ [new_task u0 j]) !! t0); lia.
  - destruct (tasks s !! t) as [tk|] eqn:Ht;
      [|cbn in Hs; rewrite Ht in Hs; discriminate].
    resume_cases Hs Ht r.
    all: rewrite <- ?app_assoc; cbn [app].
    all: first [ eapply edits_wf_goto; [exact I | exact Ht | reflexivity | | ]
               | rewrite <- (app_nil_r (log s));
                 eapply edits_wf_goto; [exact I | exact Ht | reflexivity | | ] ].
    all: try (intros t0 Hne; unfold edits; cbn;
              rewrite ?(proj2 (Nat.eqb_neq t t0)) by congruence; reflexivity).
    all: unfold edits; cbn; rewrite ?Nat.eqb_refl; cbn; lia.
  - cbn in Hs. injection Hs as <-. intros t0. specialize (I t0).
    unfold cancel_handler.
    destruct (cancel_target s u0) as [t1|]; cbn [tasks log emit];
      rewrite ?edits_app; cbn [edits List.filter is_edit_of length];
      rewrite ?Nat.add_0_r; [|exact I].
    unfold request_cancel. destruct (tasks s !! t1) as [tk1|] eqn:E; [|exact I].
    cbn [tasks log].
    destruct (decide (t0 = t1)) as [->|Hne].
    + rewrite list_lookup_insert_eq by (eapply lookup_lt_Some; exact E).
      now rewrite E in I.
    + now rewrite list_lookup_insert_ne by congruence.
Qed.

Lemma reachable_edits_wf s : reachable s -> edits_wf s.
Proof.
  intros [acts Hr].
  eapply (run_invariant edits_wf); [exact step_edits_wf | | exact Hr].
  intros t. cbn. lia.
Qed.

(** X9. A job edits its placeholder message with a final text at most
    once, and only a job whose coroutine returned normally has done so: a
    cancelled job, or one whose last edit raised, has edited nothing. *)
Theorem placeholder_is_edited_at_most_once s t :
  reachable s ->
  edits t (log s) <= 1
  /\ (0 < edits t (log s) ->
      exists tk, tasks s !! t = Some tk /\ pc tk = Finished Returned).
Proof.
  intros Hr. pose proof (reachable_edits_wf s Hr t) as I.
  destruct (tasks s !! t) as [tk|]; [|split; [lia|intros; lia]].
  unfold returned in I. split.
  - destruct (pc tk) as [| | | | | | |[]]; cbn in I; lia.
  - intros Hpos. exists tk. split; [reflexivity|].
    destruct (pc tk) as [| | | | | | |[]]; cbn in I; try lia. reflexivity.
Qed.

Lemma placeholder_is_edited_at_most_once_witness :
  let s := examples.state_after examples.schedule_success in
  reachable s
  /\ edits 0 (log s) = 1
  /\ edits 0 (log s) <= 1
  /\ (0 < edits 0 (log s) ->
      exists tk, tasks s !! 0 = Some tk /\ pc tk = Finished Returned).
Proof.
  intros s.
  assert (Hr : reachable s)
    by (exists examples.schedule_success; vm_compute; reflexivity).
  split; [exact Hr|]. split; [reflexivity|].
  exact (placeholder_is_edited_at_most_once s 0 Hr).
Defined.

(** X11. A requester's semaphore, once created by [get_user_semaphore], is
    never removed from [_user_semaphores], whatever the process does
    afterwards. *)
Theorem user_semaphore_is_never_evicted s usr acts s' :
  is_Some (_user_semaphores (q s) !! usr) ->
  run acts s = Some s' ->
  is_Some (_user_semaphores (q s') !! usr).
Proof.
  intros H Hr.
  eapply (run_invariant (fun s0 => is_Some (_user_semaphores (q s0) !! usr)));
    [|exact H|exact Hr].
  intros a s0 s1 H0 Hs. eapply step_semaphore_persists; eauto.
Qed.

Lemma user_semaphore_is_never_evicted_witness :
  let s := examples.state_after [Submit 7 examples.job0; Resume 0 Completed] in
  let acts := [Resume 0 Completed; Resume 0 Completed; Resume 0 Completed;
               Resume 0 Completed; Resume 0 Completed] in
  let s' := examples.state_after examples.schedule_success in
  (is_Some (_user_semaphores (q s) !! 7%Z) /\ run acts s = Some s')
  /\ is_Some (_user_semaphores (q s') !! 7%Z).
Proof.
  intros s acts s'.
  assert (H1 : is_Some (_user_semaphores (q s) !! 7%Z))
    by (exists 3; vm_compute; reflexivity).
  assert (H2 : run acts s = Some s') by (vm_compute; reflexivity).
  split; [split; assumption|].
  exact (user_semaphore_is_never_evicted s 7 acts s' H1 H2).
Defined.


(** *** One job from submission to its end *)

Lemma lookup_snoc (l : list Task) x : (l ++ [x]) !! length l = Some x.
Proof. now apply list_lookup_middle. Qed.

Lemma insert_snoc (l : list Task) x y : <[length l := y]> (l ++ [x]) = l ++ [y].
Proof.
  rewrite insert_app_r_alt by lia. now rewrite Nat.sub_diag.
Qed.

Lemma run_app l1 l2 s :
  run (l1 ++ l2) s = match run l1 s with
                      | Some s1 => run l2 s1
                      | None => None
                      end.
Proof.
  revert s. induction l1 as [|a l1 IH]; intros s; [reflexivity|].
  cbn. destruct (step a s); [apply IH|reflexivity].
Qed.

Lemma run_cons a acts s :
  run (a :: acts) s = match step a s with
                      | Some s' => run acts s'
                      | None => None
                      end.
Proof. reflexivity. Qed.

Lemma resume_snoc st (l : list Task) lg tk r :
  step (Resume (length l) r) {| q := st; tasks := l ++ [tk]; log := lg |}
  = _run_generation_task (length l) tk (input_of tk r)
      {| q := st; tasks := l ++ [tk]; log := lg |}.
Proof. cbn [step tasks]. now rewrite lookup_snoc. Qed.

Lemma goto_snoc st (l : list Task) lg tk0 tk p :
  goto (length l) tk p {| q := st; tasks := l ++ [tk0]; log := lg |}
  = {| q := st; tasks := l ++ [at_pc tk p]; log := lg |}.
Proof. unfold goto. cbn [q tasks log]. now rewrite insert_snoc. Qed.

(** One segment of the task at the end of the task table. *)
Ltac segment :=
  rewrite run_cons; rewrite resume_snoc;
  unfold _run_generation_task, input_of;
  cbn [pc must_cancel at_pc new_task user_id job q].

Ltac segment_done :=
  cbn [sem_acquire];
  unfold finally, _release_semaphores, emit, with_q; cbn [q tasks log];
  rewrite goto_snoc; cbv beta iota.

(** With a ticket free in both semaphores, a submitted job is dispatched in
    three steps: one ticket taken from each counter, the job registered. *)
Lemma job_is_dispatched s usr j :
  0 < global_semaphore (q s) -> 0 < user_semaphore_value (q s) usr ->
  exists st3 l3,
    run [Submit usr j; Resume (length (tasks s)) Completed;
         Resume (length (tasks s)) Completed;
         Resume (length (tasks s)) Completed] s
    = Some {| q := st3;
              tasks := tasks s ++ [at_pc (new_task usr j) AwaitGenerate];
              log := l3 |}
    /\ S (global_semaphore st3) = global_semaphore (q s)
    /\ S (user_semaphore_value st3 usr) = user_semaphore_value (q s) usr
    /\ is_Some (_user_semaphores st3 !! usr)
    /\ (forall u', u' <> usr ->
          user_semaphore_value st3 u' = user_semaphore_value (q s) u')
    /\ user_tasks st3 = <[usr := length (tasks s)]> (user_tasks (q s)).
Proof.
  intros Hg Hu.
  destruct (global_semaphore (q s)) as [|g] eqn:Eg; [lia|].
  assert (Hv : exists v,
             _user_semaphores (get_user_semaphore usr (set_global g (q s))) !! usr
             = Some (S v)
             /\ user_semaphore_value (q s) usr = S v).
  { unfold get_user_semaphore, user_semaphore_value in *. cbn.
    destruct (_user_semaphores (q s) !! usr) as [v|] eqn:E; cbn in *.
    - destruct v as [|v]; [lia|]. exists v. now rewrite E.
    - exists 2. now rewrite lookup_insert_eq. }
  destruct Hv as (v & Hv & Hval).
  eexists. eexists. split.
  { rewrite run_cons. cbn [step]. unfold emit. cbn [q tasks log].
    segment. rewrite Eg. segment_done.
    segment. rewrite Hv. segment_done.
    segment. segment_done. reflexivity. }
  split.
  { cbn [global_semaphore register set_user].
    now rewrite global_get_user_semaphore. }
  split.
  { change (user_semaphore_value
              (register usr (length (tasks s))
                 (set_user usr v (get_user_semaphore usr (set_global g (q s)))))
              usr)
      with (user_semaphore_value
              (set_user usr v (get_user_semaphore usr (set_global g (q s)))) usr).
    rewrite usv_set_user. destruct (decide (usr = usr)); [|contradiction].
    now rewrite Hval. }
  split.
  { cbn. rewrite lookup_insert_eq. now eexists. }
  split.
  { intros u' Hne.
    change (user_semaphore_value
              (register usr (length (tasks s))
                 (set_user usr v (get_user_semaphore usr (set_global g (q s)))))
              u')
      with (user_semaphore_value
              (set_user usr v (get_user_semaphore usr (set_global g (q s)))) u').
    rewrite usv_set_user. destruct (decide (usr = u')); [congruence|].
    now rewrite usv_get_user_semaphore. }
  cbn. now rewrite user_tasks_get_user_semaphore.
Qed.

(** What the [finally] clause does to a store in which the requester's
    semaphore exists. *)
Lemma finally_restores st usr n (m : gmap Z nat) :
  is_Some (_user_semaphores st !! usr) ->
  let st' := pop usr (release_global (release_user usr st)) in
  global_semaphore st' = S (global_semaphore st)
  /\ user_semaphore_value st' usr = S (user_semaphore_value st usr)
  /\ (forall u', u' <> usr ->
        user_semaphore_value st' u' = user_semaphore_value st u')
  /\ (user_tasks st = <[usr := n]> m -> user_tasks st' = delete usr m).
Proof.
  intros [v Hv] st'. subst st'. split; [reflexivity|]. split.
  { change (user_semaphore_value (pop usr (release_global (release_user usr st))) usr)
      with (user_semaphore_value (release_user usr st) usr).
    rewrite usv_release_user_eq, Hv. unfold user_semaphore_value. now rewrite Hv. }
  split.
  { intros u' Hne.
    change (user_semaphore_value (pop usr (release_global (release_user usr st))) u')
      with (user_semaphore_value (release_user usr st) u').
    apply usv_release_user_ne. congruence. }
  intros H. cbn. rewrite H. apply delete_insert_eq.
Qed.

(** X10. Taking and giving back the tickets is a round trip: a job that is
    submitted with a ticket free in both semaphores and runs undisturbed to
    its end inside the [try] statement (image delivered, backend failure
    reported, or cancelled while the backend works) leaves the global
    counter and every requester's counter as they were before the
    submission, and leaves no registry entry for its requester. *)
Theorem undisturbed_job_restores_counters s usr j e :
  0 < global_semaphore (q s) -> 0 < user_semaphore_value (q s) usr ->
  forall acts,
    acts = job_succeeds (length (tasks s)) usr j
    \/ acts = job_backend_fails (length (tasks s)) usr j e
    \/ acts = job_cancelled (length (tasks s)) usr j ->
    exists s' o,
      run acts s = Some s'
      /\ tasks s' = tasks s ++ [at_pc (new_task usr j) (Finished o)]
      /\ global_semaphore (q s') = global_semaphore (q s)
      /\ (forall u', user_semaphore_value (q s') u'
                     = user_semaphore_value (q s) u')
      /\ user_tasks (q s') = delete usr (user_tasks (q s)).
Proof.
  intros Hg Hu acts Hacts.
  destruct (job_is_dispatched s usr j Hg Hu)
    as (st3 & l3 & Hrun & Hg3 & Hu3 & Hsem & Hother & Hreg).
  destruct (finally_restores st3 usr (length (tasks s)) (user_tasks (q s)) Hsem)
    as (Fg & Fu & Fo & Fr).
  assert (Hfin :
            global_semaphore (pop usr (release_global (release_user usr st3)))
            = global_semaphore (q s)
            /\ (forall u',
                   user_semaphore_value
                     (pop usr (release_global (release_user usr st3))) u'
                   = user_semaphore_value (q s) u')
            /\ user_tasks (pop usr (release_global (release_user usr st3)))
               = delete usr (user_tasks (q s))).
  { split; [lia|]. split; [|now apply Fr].
    intros u'. destruct (decide (u' = usr)) as [->|Hne].
    - rewrite Fu. lia.
    - rewrite Fo by exact Hne. now apply Hother. }
  clear Hg Hu Hg3 Hu3 Hsem Hother Fg Fu Fo Fr.
  destruct Hacts as [->|[->| ->]].
  - change (job_succeeds (length (tasks s)) usr j)
      with ([Submit usr j; Resume (length (tasks s)) Completed;
             Resume (length (tasks s)) Completed;
             Resume (length (tasks s)) Completed]
            ++ [Resume (length (tasks s)) Completed;
                Resume (length (tasks s)) Completed;
                Resume (length (tasks s)) Completed]).
    rewrite run_app, Hrun. eexists. exists Returned. split.
    { segment. segment_done. segment. segment_done. segment. segment_done.
      reflexivity. }
    cbn [q tasks]. split; [reflexivity|]. exact Hfin.
  - change (job_backend_fails (length (tasks s)) usr j e)
      with ([Submit usr j; Resume (length (tasks s)) Completed;
             Resume (length (tasks s)) Completed;
             Resume (length (tasks s)) Completed]
            ++ [Resume (length (tasks s)) (Failed e);
                Resume (length (tasks s)) Completed]).
    rewrite run_app, Hrun. eexists. exists Returned. split.
    { segment. segment_done. segment. segment_done. reflexivity. }
    cbn [q tasks]. split; [reflexivity|]. exact Hfin.
  - change (job_cancelled (length (tasks s)) usr j)
      with ([Submit usr j; Resume (length (tasks s)) Completed;
             Resume (length (tasks s)) Completed;
             Resume (length (tasks s)) Completed]
            ++ [Cancel usr; Resume (length (tasks s)) Completed]).
    rewrite run_app, Hrun. eexists. exists Cancelled. split.
    { rewrite run_cons. cbn [step]. unfold cancel_handler, cancel_target.
      cbn [q tasks]. rewrite Hreg, lookup_insert_eq, lookup_snoc.
      cbn [done pc at_pc]. unfold request_cancel. cbn [tasks].
      rewrite lookup_snoc. unfold emit. cbn [q tasks log].
      rewrite insert_snoc.
      segment. segment_done. reflexivity. }
    cbn [q tasks]. split; [reflexivity|]. exact Hfin.
Qed.

Lemma undisturbed_job_restores_counters_witness :
  let s := examples.state_after examples.schedule_two_jobs in
  let acts := job_backend_fails 2 9 examples.job0 (lit "out of memory") in
  (0 < global_semaphore (q s) /\ 0 < user_semaphore_value (q s) 9
   /\ (acts = job_succeeds (length (tasks s)) 9 examples.job0
       \/ acts = job_backend_fails (length (tasks s)) 9 examples.job0
                   (lit "out of memory")
       \/ acts = job_cancelled (length (tasks s)) 9 examples.job0))
  /\ exists s' o,
       run acts s = Some s'
       /\ tasks s' = tasks s ++ [at_pc (new_task 9 examples.job0) (Finished o)]
       /\ global_semaphore (q s') = global_semaphore (q s)
       /\ (forall u', user_semaphore_value (q s') u'
                      = user_semaphore_value (q s) u')
       /\ user_tasks (q s') = delete 9%Z (user_tasks (q s)).
Proof.
  intros s acts.
  assert (H1 : 0 < global_semaphore (q s)) by (vm_compute; lia).
  assert (H2 : 0 < user_semaphore_value (q s) 9) by (vm_compute; lia).
  assert (H3 : acts = job_succeeds (length (tasks s)) 9 examples.job0
               \/ acts = job_backend_fails (length (tasks s)) 9 examples.job0
                           (lit "out of memory")
               \/ acts = job_cancelled (length (tasks s)) 9 examples.job0)
    by (right; left; reflexivity).
  split; [repeat split; assumption|].
  exact (undisturbed_job_restores_counters s 9 examples.job0
           (lit "out of memory") H1 H2 acts H3).
Defined.


Lemma count_holds_global (l : list Task) :
  count holds_global l = count admitted l + count awaits_user l.
Proof.
  unfold count. induction l as [|tk l IH]; [reflexivity|].
  cbn [List.filter]. unfold holds_global, admitted, awaits_user in *.
  destruct (pc tk); cbn [length]; lia.
Qed.

(** X26. The global ticket is taken first and kept while the task waits
    for its requester's ticket: in every reachable state the free global
    tickets, the admitted jobs and the jobs waiting for their requester's
    semaphore together never exceed [MAX_GLOBAL_CONCURRENT]. Jobs of a
    requester who is over the per-requester limit thus use up global
    capacity without running. *)
Theorem waiting_for_own_ticket_holds_a_global_one s :
  reachable s ->
  global_semaphore (q s) + count admitted (tasks s)
  + count awaits_user (tasks s) <= MAX_GLOBAL_CONCURRENT.
Proof.
  intros Hr. destruct (reachable_capacity_inv s Hr) as [Ig _].
  rewrite count_holds_global in Ig. lia.
Qed.

Lemma waiting_for_own_ticket_holds_a_global_one_witness :
  let s := examples.state_after schedule_one_requester in
  (reachable s
   /\ count admitted (tasks s) = 3 /\ count awaits_user (tasks s) = 2
   /\ global_semaphore (q s) = 0
   /\ step (Resume 5 Completed) s = None)
  /\ global_semaphore (q s) + count admitted (tasks s)
     + count awaits_user (tasks s) <= MAX_GLOBAL_CONCURRENT.
Proof.
  intros s.
  assert (Hr : reachable s)
    by (exists schedule_one_requester; vm_compute; reflexivity).
  split.
  { split; [exact Hr|]. vm_compute. repeat split. }
  exact (waiting_for_own_ticket_holds_a_global_one s Hr).
Defined.

End LifecycleFacts.

(** ** More on the generation backend *)

Section BackendFacts.
Import diffusion backend.
Variable w : World.

Lemma with_lora_weights_nil p : with_lora_weights p [] = p.
Proof. destruct p. unfold with_lora_weights. cbn. now rewrite app_nil_r. Qed.

Lemma with_lora_weights_app p a b :
  with_lora_weights (with_lora_weights p a) b = with_lora_weights p (a ++ b).
Proof. unfold with_lora_weights. cbn. now rewrite app_assoc. Qed.

Lemma apply_loras_loop_keeps_device p out names :
  let p' := fst (_apply_loras_loop w p out names) in
  device p' = device p /\ torch_dtype p' = torch_dtype p
  /\ attention_slicing p' = attention_slicing p.
Proof.
  revert p out. induction names as [|name rest IH]; intros p out; cbn; [auto|].
  destruct (negb _); [apply IH|].
  unfold load_lora_weights. destruct (load_lora_exc w p _); [apply IH|].
  apply (IH {| device := device p; torch_dtype := torch_dtype p;
               attention_slicing := attention_slicing p;
               lora_weights := lora_weights p
                               ++ [os_path_join (loras_dir w) name] |}).
Qed.

Lemma apply_loras_keeps_device p names :
  let p' := fst (_apply_loras w p names) in
  device p' = device p /\ torch_dtype p' = torch_dtype p
  /\ attention_slicing p' = attention_slicing p.
Proof.
  unfold _apply_loras. destruct names; [cbn; auto|].
  apply apply_loras_loop_keeps_device.
Qed.

Lemma apply_loras_loop_all_load p out names :
  (forall p0 path, load_lora_exc w p0 path = None) ->
  _apply_loras_loop w p out names
  = (with_lora_weights p
       (map (os_path_join (loras_dir w)) (List.filter (located w) names)),
     out).
Proof.
  intros Hok. revert p out.
  induction names as [|name rest IH]; intros p out; cbn.
  - now rewrite with_lora_weights_nil.
  - unfold located at 1. fold (loras_dir w).
    destruct (isfile w (os_path_join (loras_dir w) name)); cbn; [|apply IH].
    unfold load_lora_weights. rewrite Hok. rewrite IH.
    unfold with_lora_weights. cbn. now rewrite <- app_assoc.
Qed.

Lemma apply_loras_loop_all_fail (msg : str -> str) p out names :
  (forall p0 path, load_lora_exc w p0 path = Some (msg path)) ->
  _apply_loras_loop w p out names
  = (p, out ++ map (fun name =>
                      failure_line name (msg (os_path_join (loras_dir w) name)))
                   (List.filter (located w) names)).
Proof.
  intros Hfail. revert p out.
  induction names as [|name rest IH]; intros p out; cbn.
  - now rewrite app_nil_r.
  - unfold located at 1. fold (loras_dir w).
    destruct (isfile w (os_path_join (loras_dir w) name)); cbn; [|apply IH].
    unfold load_lora_weights. rewrite Hfail. rewrite IH.
    now rewrite <- app_assoc.
Qed.

Lemma apply_loras_loop_same_world w' p out names :
  same_after_load w w' ->
  _apply_loras_loop w p out names = _apply_loras_loop w' p out names.
Proof.
  intros (Hd & Hf & Hl & _). revert p out.
  assert (Hdir : loras_dir w = loras_dir w') by (unfold loras_dir; now rewrite Hd).
  induction names as [|name rest IH]; intros p out; cbn; [reflexivity|].
  fold (loras_dir w). fold (loras_dir w'). rewrite <- Hdir, <- Hf.
  destruct (negb _); [apply IH|].
  unfold load_lora_weights. rewrite <- Hl.
  destruct (load_lora_exc w p _); apply IH.
Qed.

(** [generate_image] after a successful [_load_pipeline]. *)
Lemma generate_image_loaded st prompt size steps names seed st1 p0 :
  _load_pipeline w st = (st1, Ok p0) ->
  generate_image w st prompt size steps names seed
  = (let res := _apply_loras w p0 (default [] names) in
     let c := {| call_prompt := prompt; call_height := fst size;
                 call_width := snd size; call_num_inference_steps := steps;
                 call_seed := seed; call_pipeline := fst res |} in
     ({| _pipeline := Some (fst res); stdout := stdout st1 ++ snd res;
         calls := calls st1 ++ [c] |},
      pipeline_output w c)).
Proof.
  intros H. unfold generate_image. rewrite H.
  destruct names as [l|]; cbn [default from_option id].
  - now destruct (_apply_loras w p0 l).
  - now destruct (_apply_loras w p0 []).
Qed.

(** The four ways [_load_pipeline] can go. *)
Lemma load_pipeline_cases st :
  let dev := if cuda_is_available w then cuda else cpu in
  (exists p, _pipeline st = Some p /\ _load_pipeline w st = (st, Ok p))
  \/ (exists e, _pipeline st = None /\ from_pretrained_exc w = Some e
                /\ _load_pipeline w st = (st, Raise e))
  \/ (exists p e, _pipeline st = None /\ from_pretrained_exc w = None
                  /\ (to_exc w dev = Some e
                      \/ (to_exc w dev = None /\ dev = cuda
                          /\ enable_attention_slicing_exc w = Some e))
                  /\ _load_pipeline w st = (bind_pipeline p st, Raise e)
                  /\ configured w p /\ lora_weights p = []
                  /\ attention_slicing p = false)
  \/ (exists p, _pipeline st = None /\ loads w
                /\ _load_pipeline w st = (bind_pipeline p st, Ok p)
                /\ consistent w p /\ lora_weights p = []).
Proof.
  unfold _load_pipeline, loads, configured, consistent.
  destruct (_pipeline st) as [p|] eqn:Hp; [left; eauto|].
  destruct (from_pretrained_exc w) as [e|] eqn:He; [right; left; eauto|].
  right. right.
  destruct (cuda_is_available w) eqn:Hc; cbv zeta.
  - destruct (to_exc w cuda) as [e|] eqn:Ht.
    { left. eexists. exists e. cbn. intuition eauto. }
    destruct (enable_attention_slicing_exc w) as [e|] eqn:Hs.
    { left. eexists. exists e. cbn. intuition eauto. }
    right. eexists. cbn. intuition eauto.
  - destruct (to_exc w cpu) as [e|] eqn:Ht.
    { left. eexists. exists e. cbn. intuition eauto. }
    right. eexists. cbn. intuition (eauto; discriminate).
Qed.

Lemma consistent_configured p : consistent w p -> configured w p.
Proof.
  intros C. split; [|now left].
  destruct C as (C1 & C2 & _). rewrite C2, C1.
  now destruct (cuda_is_available w).
Qed.

(** Without an exception in the load, a configured pipeline is the
    completely set-up one. *)
Lemma configured_loads p : configured w p -> loads w -> consistent w p.
Proof.
  intros (_ & [C|[(Ht & _)|(Hd & Hs & _)]]) (_ & Lt & Ls); [exact C| |].
  - rewrite Lt in Ht. now destruct Ht.
  - destruct (cuda_is_available w); [|discriminate Hd].
    rewrite (Ls eq_refl) in Hs. now destruct Hs.
Qed.

Lemma apply_loras_keeps_configured p names :
  configured w p -> configured w (fst (_apply_loras w p names)).
Proof.
  destruct (apply_loras_keeps_device p names) as (K1 & K2 & K3).
  unfold configured, consistent. cbv zeta. rewrite K1, K2, K3. auto.
Qed.

Lemma generate_image_keeps_configured st prompt size steps names seed :
  (forall p, _pipeline st = Some p -> configured w p) ->
  forall p, _pipeline (fst (generate_image w st prompt size steps names seed))
            = Some p ->
            configured w p.
Proof.
  intros I p.
  assert (K : forall st1 p0, _load_pipeline w st = (st1, Ok p0) ->
                             configured w p0 ->
                             _pipeline (fst (generate_image w st prompt size
                                               steps names seed)) = Some p ->
                             configured w p).
  { intros st1 p0 Hl C. rewrite (generate_image_loaded _ _ _ _ _ _ _ _ Hl).
    cbn. intros [= <-]. now apply apply_loras_keeps_configured. }
  destruct (load_pipeline_cases st)
    as [(p0 & Hp & Hl)|[(e & Hp & He & Hl)
        |[(p0 & e & Hp & He & _ & Hl & C & _)|(p0 & Hp & _ & Hl & C & _)]]].
  - apply (K st p0 Hl). now apply I.
  - unfold generate_image. rewrite Hl. cbn. rewrite Hp. discriminate.
  - unfold generate_image. rewrite Hl. cbn. now intros [= <-].
  - apply (K _ p0 Hl). now apply consistent_configured.
Qed.

Lemma serve_all_keeps_configured rs : forall st,
  (forall p, _pipeline st = Some p -> configured w p) ->
  forall p, _pipeline (serve_all w st rs) = Some p -> configured w p.
Proof.
  induction rs as [|r rest IH]; intros st I p; cbn; [apply I|].
  apply IH. unfold serve. now apply generate_image_keeps_configured.
Qed.

End BackendFacts.

(** X12. The pipeline is loaded once: as soon as one is cached, a request
    no longer depends on [from_pretrained], on [.to(device)], on
    [enable_attention_slicing()] or on the available device; it behaves
    the same in any world that differs only in those. *)
Theorem cached_pipeline_is_not_loaded_again
    (w w' : diffusion.World) (st : diffusion.State) (p : diffusion.Pipeline)
    (prompt : str) (size : Z * Z) (steps : Z) (names : option (list str))
    (seed : Z) :
  backend.same_after_load w w' ->
  diffusion._pipeline st = Some p ->
  diffusion.generate_image w st prompt size steps names seed
  = diffusion.generate_image w' st prompt size steps names seed.
Proof.
  intros Hw Hp.
  assert (Hl : forall w0, diffusion._load_pipeline w0 st = (st, Ok p))
    by (intros w0; unfold diffusion._load_pipeline; now rewrite Hp).
  rewrite (generate_image_loaded w _ _ _ _ _ _ _ _ (Hl w)).
  rewrite (generate_image_loaded w' _ _ _ _ _ _ _ _ (Hl w')).
  assert (Ha : diffusion._apply_loras w p (default [] names)
               = diffusion._apply_loras w' p (default [] names)).
  { unfold diffusion._apply_loras. destruct (default [] names); [reflexivity|].
    now apply apply_loras_loop_same_world. }
  rewrite Ha. cbv zeta. destruct Hw as (_ & _ & _ & Ho). now rewrite Ho.
Qed.

Lemma cached_pipeline_is_not_loaded_again_witness :
  let w' := {| diffusion.cuda_is_available := true;
               diffusion.module_dir := lit "/app/bot";
               diffusion.isfile := diffusion.isfile examples.world0;
               diffusion.from_pretrained_exc := Some (lit "no network");
               diffusion.to_exc := fun _ => None;
               diffusion.enable_attention_slicing_exc := None;
               diffusion.load_lora_exc := fun _ _ => None;
               diffusion.pipeline_output := fun _ => Ok 0%N |} in
  let st := fst (diffusion.serve examples.world0 diffusion.init
                   (examples.request0 None)) in
  let p := {| diffusion.device := diffusion.cpu;
              diffusion.torch_dtype := diffusion.float32;
              diffusion.attention_slicing := false;
              diffusion.lora_weights := [] |} in
  (backend.same_after_load examples.world0 w'
   /\ diffusion._pipeline st = Some p)
  /\ diffusion.generate_image examples.world0 st (lit "dog") (512, 512)%Z 30%Z
       (Some [lit "style.safetensors"]) 2%Z
     = diffusion.generate_image w' st (lit "dog") (512, 512)%Z 30%Z
         (Some [lit "style.safetensors"]) 2%Z.
Proof.
  intros w' st p.
  assert (H1 : backend.same_after_load examples.world0 w')
    by (repeat split).
  assert (H2 : diffusion._pipeline st = Some p) by reflexivity.
  split; [split; assumption|].
  exact (cached_pipeline_is_not_loaded_again examples.world0 w' st p
           (lit "dog") (512, 512)%Z 30%Z (Some [lit "style.safetensors"]) 2%Z
           H1 H2).
Defined.

(** X13. Applying assets never changes device, dtype or attention slicing,
    so the cached pipeline stays as [_load_pipeline] left it. Its dtype is
    half precision exactly when CUDA is available. When nothing raises in
    the load it sits on the chosen device (CUDA when available, else the
    CPU) with attention slicing exactly on CUDA. Otherwise it is the
    pipeline left behind by the load that raised: still on the CPU when
    [.to(device)] raised, on CUDA without slicing when
    [enable_attention_slicing()] raised. *)
Theorem cached_pipeline_keeps_its_device
    (w : diffusion.World) (rs : list diffusion.Request) (p : diffusion.Pipeline) :
  diffusion._pipeline (diffusion.serve_all w diffusion.init rs) = Some p ->
  backend.configured w p /\ (diffusion.loads w -> backend.consistent w p).
Proof.
  intros H.
  assert (C : backend.configured w p).
  { apply (serve_all_keeps_configured w rs diffusion.init); [|exact H].
    intros p0 H0. discriminate H0. }
  split; [exact C|]. now apply configured_loads.
Qed.

Lemma cached_pipeline_keeps_its_device_witness :
  let w := {| diffusion.cuda_is_available := true;
              diffusion.module_dir := lit "/app/bot";
              diffusion.isfile := diffusion.isfile examples.world0;
              diffusion.from_pretrained_exc := None;
              diffusion.to_exc := fun _ => Some (lit "CUDA out of memory");
              diffusion.enable_attention_slicing_exc := None;
              diffusion.load_lora_exc := fun _ _ => None;
              diffusion.pipeline_output := fun _ => Ok 0%N |} in
  let rs := [examples.request0 None;
             examples.request0 (Some [lit "style.safetensors"])] in
  let p := {| diffusion.device := diffusion.cpu;
              diffusion.torch_dtype := diffusion.float16;
              diffusion.attention_slicing := false;
              diffusion.lora_weights :=
                [lit "/app/bot/../loras/style.safetensors"] |} in
  diffusion._pipeline (diffusion.serve_all w diffusion.init rs) = Some p
  /\ backend.configured w p /\ (diffusion.loads w -> backend.consistent w p).
Proof.
  intros w rs p.
  assert (H : diffusion._pipeline (diffusion.serve_all w diffusion.init rs)
              = Some p) by reflexivity.
  split; [exact H|].
  exact (cached_pipeline_keeps_its_device w rs p H).
Defined.

(** X14. A request fails only for one of three reasons. Nothing is cached
    and [from_pretrained] raises: the module state is left untouched, so
    the next request tries again. Nothing is cached and [.to(device)] or,
    on CUDA, [enable_attention_slicing()] raises: the pipeline that was
    not set up completely stays cached, without a file loaded, and nothing
    else changes, so the next request does not load again. Or the pipeline
    invocation itself raises. A missing asset or an asset that fails to
    load never makes the request fail. *)
Theorem generate_image_fails_only_on_load_or_invocation
    (w : diffusion.World) (st st' : diffusion.State) (prompt : str)
    (size : Z * Z) (steps : Z) (names : option (list str)) (seed : Z) (e : str) :
  diffusion.generate_image w st prompt size steps names seed = (st', Raise e) ->
  let dev := if diffusion.cuda_is_available w
             then diffusion.cuda else diffusion.cpu in
  (diffusion._pipeline st = None
   /\ diffusion.from_pretrained_exc w = Some e /\ st' = st)
  \/ (diffusion._pipeline st = None
      /\ diffusion.from_pretrained_exc w = None
      /\ (diffusion.to_exc w dev = Some e
          \/ (diffusion.to_exc w dev = None /\ dev = diffusion.cuda
              /\ diffusion.enable_attention_slicing_exc w = Some e))
      /\ exists p,
           st' = diffusion.bind_pipeline p st
           /\ diffusion.lora_weights p = []
           /\ diffusion.attention_slicing p = false)
  \/ exists c,
       diffusion.calls st' = diffusion.calls st ++ [c]
       /\ diffusion.pipeline_output w c = Raise e.
Proof.
  intros H dev.
  destruct (load_pipeline_cases w st)
    as [(p0 & Hp & Hl)|[(e0 & Hp & He & Hl)
        |[(p0 & e0 & Hp & He & Hwhy & Hl & _ & Hn & Hs)
         |(p0 & Hp & _ & Hl & _)]]].
  - right. right. rewrite (generate_image_loaded w _ _ _ _ _ _ _ _ Hl) in H.
    cbv zeta in H. injection H as <- H. eexists. split; [reflexivity|exact H].
  - left. unfold diffusion.generate_image in H. rewrite Hl in H.
    injection H as <- <-. auto.
  - right. left. unfold diffusion.generate_image in H. rewrite Hl in H.
    injection H as <- <-. repeat split; [exact Hp|exact He|exact Hwhy|].
    exists p0. auto.
  - right. right. rewrite (generate_image_loaded w _ _ _ _ _ _ _ _ Hl) in H.
    cbv zeta in H. injection H as <- H. eexists. split; [reflexivity|exact H].
Qed.

Lemma generate_image_fails_only_on_load_or_invocation_witness :
  let w := {| diffusion.cuda_is_available := true;
              diffusion.module_dir := lit "/app/bot";
              diffusion.isfile := fun _ => true;
              diffusion.from_pretrained_exc := None;
              diffusion.to_exc := fun _ => Some (lit "CUDA out of memory");
              diffusion.enable_attention_slicing_exc := None;
              diffusion.load_lora_exc := fun _ _ => Some (lit "bad file");
              diffusion.pipeline_output := fun _ => Ok 0%N |} in
  let p0 := {| diffusion.device := diffusion.cpu;
               diffusion.torch_dtype := diffusion.float16;
               diffusion.attention_slicing := false;
               diffusion.lora_weights := [] |} in
  let st' := diffusion.bind_pipeline p0 diffusion.init in
  let e := lit "CUDA out of memory" in
  diffusion.generate_image w diffusion.init (lit "cat") (512, 512)%Z 30%Z
    (Some [lit "a"]) 1%Z = (st', Raise e)
  /\ ((diffusion._pipeline diffusion.init = None
       /\ diffusion.from_pretrained_exc w = Some e /\ st' = diffusion.init)
      \/ (diffusion._pipeline diffusion.init = None
          /\ diffusion.from_pretrained_exc w = None
          /\ (diffusion.to_exc w diffusion.cuda = Some e
              \/ (diffusion.to_exc w diffusion.cuda = None
                  /\ diffusion.cuda = diffusion.cuda
                  /\ diffusion.enable_attention_slicing_exc w = Some e))
          /\ exists p,
               st' = diffusion.bind_pipeline p diffusion.init
               /\ diffusion.lora_weights p = []
               /\ diffusion.attention_slicing p = false)
      \/ exists c,
           diffusion.calls st' = diffusion.calls diffusion.init ++ [c]
           /\ diffusion.pipeline_output w c = Raise e).
Proof.
  intros w p0 st' e.
  assert (H : diffusion.generate_image w diffusion.init (lit "cat")
                (512, 512)%Z 30%Z (Some [lit "a"]) 1%Z
              = (st', Raise e)) by reflexivity.
  split; [exact H|].
  exact (generate_image_fails_only_on_load_or_invocation w diffusion.init
           st' (lit "cat") (512, 512)%Z 30%Z (Some [lit "a"]) 1%Z e H).
Defined.

(** X15. Assets are loaded again on every request: when every load goes
    through, a request appends to the cached pipeline's loaded files the
    path of each of its located names, in order and with repetitions,
    whatever is loaded already, and prints nothing. *)
Theorem located_assets_are_loaded_on_every_request
    (w : diffusion.World) (st : diffusion.State) (p : diffusion.Pipeline)
    (prompt : str) (size : Z * Z) (steps : Z) (names : option (list str))
    (seed : Z) :
  (forall p0 path, diffusion.load_lora_exc w p0 path = None) ->
  diffusion._pipeline st = Some p ->
  let st' := fst (diffusion.generate_image w st prompt size steps names seed) in
  diffusion._pipeline st'
  = Some (backend.with_lora_weights p
            (map (diffusion.os_path_join (diffusion.loras_dir w))
                 (List.filter (diffusion.located w) (default [] names))))
  /\ diffusion.stdout st' = diffusion.stdout st.
Proof.
  intros Hok Hp st'. subst st'.
  assert (Hl : diffusion._load_pipeline w st = (st, Ok p))
    by (unfold diffusion._load_pipeline; now rewrite Hp).
  rewrite (generate_image_loaded w _ _ _ _ _ _ _ _ Hl). cbv zeta. cbn [fst].
  cbn [diffusion._pipeline diffusion.stdout].
  assert (Ha : diffusion._apply_loras w p (default [] names)
               = (backend.with_lora_weights p
                    (map (diffusion.os_path_join (diffusion.loras_dir w))
                       (List.filter (diffusion.located w) (default [] names))),
                  [])).
  { unfold diffusion._apply_loras. destruct (default [] names) eqn:E.
    - cbn. now rewrite with_lora_weights_nil.
    - now apply apply_loras_loop_all_load. }
  rewrite Ha. cbn. now rewrite app_nil_r.
Qed.

Lemma located_assets_are_loaded_on_every_request_witness :
  let style := lit "style.safetensors" in
  let path := lit "/app/bot/../loras/style.safetensors" in
  let st := fst (diffusion.serve examples.world0 diffusion.init
                   (examples.request0 (Some [style]))) in
  let p := {| diffusion.device := diffusion.cpu;
              diffusion.torch_dtype := diffusion.float32;
              diffusion.attention_slicing := false;
              diffusion.lora_weights := [path] |} in
  let names := Some [style; lit "missing.safetensors"; style] in
  let st' := fst (diffusion.generate_image examples.world0 st (lit "cat")
                    (512, 512)%Z 30%Z names 1%Z) in
  ((forall p0 path0, diffusion.load_lora_exc examples.world0 p0 path0 = None)
   /\ diffusion._pipeline st = Some p)
  /\ diffusion._pipeline st'
     = Some (backend.with_lora_weights p
               (map (diffusion.os_path_join (diffusion.loras_dir examples.world0))
                    (List.filter (diffusion.located examples.world0)
                       (default [] names))))
  /\ diffusion.stdout st' = diffusion.stdout st.
Proof.
  intros style path st p names st'.
  assert (H1 : forall p0 path0,
             diffusion.load_lora_exc examples.world0 p0 path0 = None)
    by reflexivity.
  assert (H2 : diffusion._pipeline st = Some p) by reflexivity.
  split; [split; assumption|].
  exact (located_assets_are_loaded_on_every_request examples.world0 st p
           (lit "cat") (512, 512)%Z 30%Z names 1%Z H1 H2).
Defined.

(** X16. An asset that fails to load is reported and skipped: when every
    load raises, a request leaves the cached pipeline as it was, prints
    one line per located name, in order, carrying the name and the
    exception, and still invokes the pipeline, whose answer is the
    request's result. *)
Theorem failing_assets_are_reported_and_skipped
    (w : diffusion.World) (msg : str -> str) (st : diffusion.State)
    (p : diffusion.Pipeline) (prompt : str) (size : Z * Z) (steps : Z)
    (names : option (list str)) (seed : Z) :
  (forall p0 path, diffusion.load_lora_exc w p0 path = Some (msg path)) ->
  diffusion._pipeline st = Some p ->
  let res := diffusion.generate_image w st prompt size steps names seed in
  let c := {| diffusion.call_prompt := prompt;
              diffusion.call_height := fst size;
              diffusion.call_width := snd size;
              diffusion.call_num_inference_steps := steps;
              diffusion.call_seed := seed;
              diffusion.call_pipeline := p |} in
  diffusion._pipeline (fst res) = Some p
  /\ diffusion.stdout (fst res)
     = diffusion.stdout st
       ++ map (fun name =>
                 backend.failure_line name
                   (msg (diffusion.os_path_join (diffusion.loras_dir w) name)))
              (List.filter (diffusion.located w) (default [] names))
  /\ diffusion.calls (fst res) = diffusion.calls st ++ [c]
  /\ snd res = diffusion.pipeline_output w c.
Proof.
  intros Hfail Hp res c. subst res c.
  assert (Hl : diffusion._load_pipeline w st = (st, Ok p))
    by (unfold diffusion._load_pipeline; now rewrite Hp).
  rewrite (generate_image_loaded w _ _ _ _ _ _ _ _ Hl). cbv zeta.
  assert (Ha : diffusion._apply_loras w p (default [] names)
               = (p, map (fun name =>
                            backend.failure_line name
                              (msg (diffusion.os_path_join
                                      (diffusion.loras_dir w) name)))
                         (List.filter (diffusion.located w) (default [] names)))).
  { unfold diffusion._apply_loras. destruct (default [] names) eqn:E.
    - reflexivity.
    - now rewrite (apply_loras_loop_all_fail w msg). }
  rewrite Ha. cbn. auto.
Qed.

Lemma failing_assets_are_reported_and_skipped_witness :
  let w := {| diffusion.cuda_is_available := false;
              diffusion.module_dir := lit "/app/bot";
              diffusion.isfile := fun _ => true;
              diffusion.from_pretrained_exc := None;
              diffusion.to_exc := fun _ => None;
              diffusion.enable_attention_slicing_exc := None;
              diffusion.load_lora_exc := fun _ _ => Some (lit "bad file");
              diffusion.pipeline_output := fun _ => Ok 0%N |} in
  let st := fst (diffusion.generate_image w diffusion.init (lit "cat")
                   (512, 512)%Z 30%Z None 1%Z) in
  let p := {| diffusion.device := diffusion.cpu;
              diffusion.torch_dtype := diffusion.float32;
              diffusion.attention_slicing := false;
              diffusion.lora_weights := [] |} in
  let res := diffusion.generate_image w st (lit "cat") (512, 512)%Z 30%Z
               (Some [lit "a"; lit "b"]) 2%Z in
  let c := {| diffusion.call_prompt := lit "cat";
              diffusion.call_height := 512%Z;
              diffusion.call_width := 512%Z;
              diffusion.call_num_inference_steps := 30%Z;
              diffusion.call_seed := 2%Z;
              diffusion.call_pipeline := p |} in
  ((forall p0 path, diffusion.load_lora_exc w p0 path = Some (lit "bad file"))
   /\ diffusion._pipeline st = Some p)
  /\ diffusion._pipeline (fst res) = Some p
  /\ diffusion.stdout (fst res)
     = [lit "[diffusion] Failed to load LoRA 'a': bad file";
        lit "[diffusion] Failed to load LoRA 'b': bad file"]
  /\ diffusion.calls (fst res) = diffusion.calls st ++ [c]
  /\ snd res = Ok 0%N.
Proof.
  intros w st p res c.
  assert (H1 : forall p0 path,
             diffusion.load_lora_exc w p0 path = Some (lit "bad file"))
    by reflexivity.
  assert (H2 : diffusion._pipeline st = Some p) by reflexivity.
  split; [split; assumption|].
  exact (failing_assets_are_reported_and_skipped w (fun _ => lit "bad file") st p
           (lit "cat") (512, 512)%Z 30%Z (Some [lit "a"; lit "b"]) 2%Z H1 H2).
Defined.

Lemma loras_dir_ends_with_loras (w : diffusion.World) :
  exists base, diffusion.loras_dir w = base ++ lit "loras".
Proof.
  unfold diffusion.loras_dir.
  set (up := diffusion.os_path_join (diffusion.module_dir w) (lit "..")).
  unfold diffusion.os_path_join at 1. cbn [startswith lit N_of_ascii].
  change (N_of_ascii "l" =? 47)%N with false. cbv iota.
  destruct (match up with [] => true | _ :: _ => endswith up 47%N end).
  - now exists up.
  - exists (up ++ [47%N]). now rewrite <- app_assoc.
Qed.

Lemma join_under_loras_dir (w : diffusion.World) (name : str) :
  startswith name 47%N = false ->
  diffusion.os_path_join (diffusion.loras_dir w) name
  = diffusion.loras_dir w ++ 47%N :: name.
Proof.
  intros Hn. destruct (loras_dir_ends_with_loras w) as [base Hb].
  unfold diffusion.os_path_join. rewrite Hn, Hb.
  assert (He : endswith (base ++ lit "loras") 47%N = false).
  { unfold endswith. rewrite rev_app_distr. reflexivity. }
  rewrite He. destruct (base ++ lit "loras") eqn:E; [|reflexivity].
  apply app_eq_nil in E as [_ E]. discriminate E.
Qed.

(** X17. A named asset is looked for inside the [loras] directory: for
    every name that does not start with a slash the path checked and
    loaded is the directory, a slash, and the name. Only a name that starts
    with a slash is taken as the path itself. *)
Theorem asset_path_is_under_loras_dir (w : diffusion.World) (name : str) :
  (startswith name 47%N = false ->
   diffusion.os_path_join (diffusion.loras_dir w) name
   = diffusion.loras_dir w ++ 47%N :: name)
  /\ (startswith name 47%N = true ->
      diffusion.os_path_join (diffusion.loras_dir w) name = name).
Proof.
  split; [apply join_under_loras_dir|].
  unfold diffusion.os_path_join. now intros ->.
Qed.

Lemma asset_path_is_under_loras_dir_witness :
  (startswith (lit "style.safetensors") 47%N = false
   /\ startswith (lit "/etc/passwd") 47%N = true)
  /\ diffusion.os_path_join (diffusion.loras_dir examples.world0)
       (lit "style.safetensors")
     = diffusion.loras_dir examples.world0 ++ 47%N :: lit "style.safetensors"
  /\ diffusion.os_path_join (diffusion.loras_dir examples.world0)
       (lit "/etc/passwd") = lit "/etc/passwd".
Proof.
  split; [split; reflexivity|]. split.
  - exact (proj1 (asset_path_is_under_loras_dir examples.world0
                    (lit "style.safetensors")) eq_refl).
  - exact (proj2 (asset_path_is_under_loras_dir examples.world0
                    (lit "/etc/passwd")) eq_refl).
Defined.

(** ** The prompt backend and the command handlers *)

Section StringFacts.

Lemma lstrip_snoc_nonspace (x : str) (c : N) :
  isspace c = false ->
  exists x', lstrip (x ++ [c]) = x' ++ [c]
             /\ (x' = [] \/ exists d x'', x' = d :: x'' /\ isspace d = false).
Proof.
  intros Hc. induction x as [|a x IH]; cbn.
  - rewrite Hc. exists []. auto.
  - destruct (isspace a) eqn:Ha; [exact IH|].
    exists (a :: x). split; [reflexivity|]. right. eauto.
Qed.

Lemma lstrip_head (s : str) :
  lstrip s = [] \/ exists c r, lstrip s = c :: r /\ isspace c = false.
Proof.
  induction s as [|a s IH]; cbn; [now left|].
  destruct (isspace a) eqn:Ha; [exact IH|]. right. eauto.
Qed.

Lemma strip_is_trimmed (s : str) : trimmed (strip s).
Proof.
  unfold strip, rstrip.
  destruct (lstrip_head s) as [->|(c & r & -> & Hc)]; [exact I|].
  cbn [rev].
  destruct (lstrip_snoc_nonspace (rev r) c Hc) as (x' & -> & Hx').
  rewrite rev_app_distr. cbn [rev app].
  destruct Hx' as [->|(d & x'' & -> & Hd)]; cbn; [auto|].
  split; [exact Hc|].
  destruct (rev x'' ++ [d]) eqn:E.
  - apply app_eq_nil in E as [_ E]. discriminate E.
  - rewrite <- E. now rewrite last_last.
Qed.





Lemma before_first_no_sep c s : ~ In c (commands.before_first c s).
Proof.
  induction s as [|x r IH]; cbn; [tauto|].
  destruct (N.eqb_spec x c); cbn; [tauto|]. intros [H|H]; [congruence|tauto].
Qed.

Lemma before_first_incl c s x : In x (commands.before_first c s) -> In x s.
Proof.
  induction s as [|y r IH]; cbn; [tauto|].
  destruct (y =? c)%N; cbn; [tauto|]. intros [H|H]; auto.
Qed.

End StringFacts.

(** X18. The prompt that [generate_prompt_from_idea] returns never has
    white space at either end, with or without a client: both paths strip
    what they return. *)
Theorem prompt_from_idea_is_trimmed
    (_client : option llm.Client) (idea prompt : str) :
  llm.generate_prompt_from_idea _client idea = Ok prompt -> trimmed prompt.
Proof.
  unfold llm.generate_prompt_from_idea.
  destruct _client as [call|].
  - destruct (call idea); [|discriminate]. intros [= <-]. apply strip_is_trimmed.
  - intros [= <-]. apply strip_is_trimmed.
Qed.

Lemma prompt_from_idea_is_trimmed_witness :
  let client : llm.Client := fun _ => Ok (lit "  a cat, detailed  ") in
  llm.generate_prompt_from_idea (Some client) (lit "cat")
  = Ok (lit "a cat, detailed")
  /\ trimmed (lit "a cat, detailed").
Proof.
  intros client.
  assert (H : llm.generate_prompt_from_idea (Some client) (lit "cat")
              = Ok (lit "a cat, detailed")) by reflexivity.
  split; [exact H|].
  exact (prompt_from_idea_is_trimmed (Some client) (lit "cat")
           (lit "a cat, detailed") H).
Defined.

(** X19. The file name [lora_handler] derives from a URL contains neither a
    slash nor a question mark, so the file is written directly inside the
    [loras] directory next to the module, whatever the URL. *)
Theorem url_filename_stays_in_loras_dir (dirname url : str) :
  let filename := commands.filename_of_url url in
  ~ In 47%N filename /\ ~ In 63%N filename
  /\ commands.loras_path dirname filename
     = diffusion.os_path_join
         (diffusion.os_path_join dirname (lit "..")) (lit "loras")
       ++ 47%N :: filename.
Proof.
  intros filename. subst filename. unfold commands.filename_of_url, commands.basename.
  assert (H47 : ~ In 47%N (rev (commands.before_first 47
                                  (rev (commands.before_first 63 url))))).
  { rewrite <- in_rev. apply before_first_no_sep. }
  split; [exact H47|]. split.
  { rewrite <- in_rev. intros H. apply before_first_incl in H.
    rewrite <- in_rev in H. revert H. apply before_first_no_sep. }
  set (f := rev _) in *.
  set (w := {| diffusion.cuda_is_available := false;
               diffusion.module_dir := dirname;
               diffusion.isfile := fun _ => false;
               diffusion.from_pretrained_exc := None;
               diffusion.to_exc := fun _ => None;
               diffusion.enable_attention_slicing_exc := None;
               diffusion.load_lora_exc := fun _ _ => None;
               diffusion.pipeline_output := fun _ => Ok 0%N |}).
  apply (join_under_loras_dir w f).
  destruct f as [|x r]; [reflexivity|]. cbn.
  destruct (N.eqb_spec x 47); [|reflexivity]. subst x. exfalso. apply H47. now left.
Qed.

Section ActivesFacts.
Import commands.

Lemma no_actives_wf : actives_wf no_actives.
Proof.
  split.
  - intros uid r H. cbn in H. now rewrite lookup_empty in H.
  - intros u1 u2 r H. cbn in H. now rewrite lookup_empty in H.
Qed.

Lemma content_app_old (a : Actives) extra r :
  r < length (lists a) ->
  default [] ((lists a ++ extra) !! r) = content a r.
Proof. intros H. unfold content. now rewrite lookup_app_l. Qed.

Lemma content_app_new (a : Actives) (x : list str) :
  default [] ((lists a ++ [x]) !! length (lists a)) = x.
Proof. now rewrite list_lookup_middle. Qed.

Lemma get_loras_wf uid a : actives_wf a -> actives_wf (fst (get_loras uid a)).
Proof.
  intros [W1 W2]. unfold get_loras.
  destruct (_user_active_loras a !! uid); cbn; [split; assumption|].
  split; [|exact W2]. intros u r H. cbn. rewrite length_app. cbn.
  specialize (W1 u r H). lia.
Qed.

Lemma fresh_not_named a uid :
  actives_wf a -> _user_active_loras a !! uid <> Some (length (lists a)).
Proof. intros [W1 _] H. specialize (W1 _ _ H). lia. Qed.

Lemma activate_wf uid f a : actives_wf a -> actives_wf (activate uid f a).
Proof.
  intros W. pose proof W as [W1 W2]. unfold activate.
  destruct (_user_active_loras a !! uid) as [r|] eqn:E; cbn.
  - split; [|exact W2]. intros u r0 H. cbn. rewrite length_insert. eauto.
  - split.
    + intros u r0 H. cbn in *. rewrite length_app. cbn.
      destruct (decide (uid = u)) as [->|Hne].
      * rewrite lookup_insert_eq in H. injection H as <-. lia.
      * rewrite lookup_insert_ne in H by exact Hne. specialize (W1 u r0 H). lia.
    + intros u1 u2 r0 H1 H2. cbn in *.
      destruct (decide (uid = u1)) as [<-|N1], (decide (uid = u2)) as [<-|N2];
        rewrite ?lookup_insert_eq in *;
        rewrite ?lookup_insert_ne in * by assumption; try reflexivity.
      * injection H1 as <-. now apply fresh_not_named in H2.
      * injection H2 as <-. now apply fresh_not_named in H1.
      * eauto.
Qed.

Lemma clear_wf uid a : actives_wf a -> actives_wf (clear_loras_handler uid a).
Proof.
  intros W. pose proof W as [W1 W2]. unfold clear_loras_handler. split.
  - intros u r0 H. cbn in *. rewrite length_app. cbn.
    destruct (decide (uid = u)) as [->|Hne].
    + rewrite lookup_insert_eq in H. injection H as <-. lia.
    + rewrite lookup_insert_ne in H by exact Hne. specialize (W1 u r0 H). lia.
  - intros u1 u2 r0 H1 H2. cbn in *.
    destruct (decide (uid = u1)) as [<-|N1], (decide (uid = u2)) as [<-|N2];
      rewrite ?lookup_insert_eq in *;
      rewrite ?lookup_insert_ne in * by assumption; try reflexivity.
    + injection H1 as <-. now apply fresh_not_named in H2.
    + injection H2 as <-. now apply fresh_not_named in H1.
    + eauto.
Qed.

(** What [activate] does to the content of every list object. *)
Lemma content_activate uid f a r :
  actives_wf a ->
  content (activate uid f a) r
  = if decide (_user_active_loras a !! uid = Some r)
    then content a r ++ [f]
    else if decide (r = length (lists a))
         then match _user_active_loras a !! uid with
              | None => [f]
              | Some _ => []
              end
         else content a r.
Proof.
  intros [W1 W2]. unfold activate, content.
  destruct (_user_active_loras a !! uid) as [r0|] eqn:E; cbn.
  - destruct (decide (Some r0 = Some r)) as [[= ->]|Hne].
    + rewrite list_lookup_insert_eq by eauto. reflexivity.
    + rewrite list_lookup_insert_ne by congruence.
      destruct (decide (r = length (lists a))) as [->|]; [|reflexivity].
      now rewrite lookup_ge_None_2.
  - destruct (decide (None = Some r)); [discriminate|].
    destruct (decide (r = length (lists a))) as [->|Hne].
    + now rewrite list_lookup_middle.
    + destruct (decide (r < length (lists a))).
      * now rewrite lookup_app_l.
      * rewrite !lookup_ge_None_2; [reflexivity|lia|rewrite length_app; cbn; lia].
Qed.

Lemma active_of_activate uid f a uid' :
  actives_wf a ->
  active_of (activate uid f a) uid'
  = if decide (uid' = uid) then active_of a uid ++ [f] else active_of a uid'.
Proof.
  intros W. pose proof W as [W1 W2]. unfold active_of at 1.
  assert (Hd : _user_active_loras (activate uid f a) !! uid'
               = if decide (uid' = uid)
                 then Some (default (length (lists a)) (_user_active_loras a !! uid))
                 else _user_active_loras a !! uid').
  { unfold activate. destruct (_user_active_loras a !! uid) eqn:E; cbn.
    - destruct (decide (uid' = uid)) as [->|]; [exact E|reflexivity].
    - destruct (decide (uid' = uid)) as [->|].
      + apply lookup_insert_eq.
      + now rewrite lookup_insert_ne by congruence. }
  rewrite Hd. unfold active_of.
  destruct (decide (uid' = uid)) as [->|Hne].
  - rewrite content_activate by exact W.
    destruct (_user_active_loras a !! uid) as [r|] eqn:E; cbn.
    + now destruct (decide (Some r = Some r)).
    + destruct (decide (None = Some (length (lists a)))); [discriminate|].
      destruct (decide (length (lists a) = length (lists a))); [|contradiction].
      reflexivity.
  - destruct (_user_active_loras a !! uid') as [r|] eqn:E; [|reflexivity].
    rewrite content_activate by exact W.
    destruct (decide (_user_active_loras a !! uid = Some r)) as [H|H].
    + exfalso. apply Hne. eapply W2; eauto.
    + destruct (decide (r = length (lists a))) as [->|]; [|reflexivity].
      now apply fresh_not_named in E.
Qed.


Lemma active_of_clear uid a uid' :
  actives_wf a ->
  active_of (clear_loras_handler uid a) uid'
  = if decide (uid' = uid) then [] else active_of a uid'.
Proof.
  intros W. pose proof W as [W1 W2]. unfold active_of, clear_loras_handler.
  cbn [_user_active_loras lists content].
  destruct (decide (uid' = uid)) as [->|Hne].
  - rewrite lookup_insert_eq. apply content_app_new.
  - rewrite lookup_insert_ne by congruence.
    destruct (_user_active_loras a !! uid') as [r|] eqn:E; [|reflexivity].
    unfold content at 1. cbn [lists]. apply content_app_old. eauto.
Qed.

(** X20. A download that succeeds makes the asset both active and
    locatable: the name registered is the one derived from the URL, it is
    appended to the caller's active assets and to nobody else's, and the
    file written is exactly the one the backend looks for under that name. *)
Theorem downloaded_asset_is_active_and_located
    (net : Net) (uid : Z) (args : list str) (st st' : Store) (f : str)
    (w : diffusion.World) :
  actives_wf (actives st) ->
  lora_handler net uid args st = (st', Ok (LoraDownloaded f)) ->
  (exists url rest, args = url :: rest /\ f = filename_of_url url)
  /\ active_of (actives st') uid = active_of (actives st) uid ++ [f]
  /\ (forall uid', uid' <> uid ->
        active_of (actives st') uid' = active_of (actives st) uid')
  /\ diffusion.located (world_of net st' w) f = true
  /\ actives_wf (actives st').
Proof.
  intros W H. unfold lora_handler, reply_text in H.
  destruct args as [|url rest];
    [destruct (reply_exc net _); discriminate|].
  destruct (requests_get net url) as [resp|];
    [|destruct (reply_exc net _); discriminate].
  destruct (status_exc resp); [destruct (reply_exc net _); discriminate|].
  destruct (open_exc net _); [destruct (reply_exc net _); discriminate|].
  destruct (stream_exc resp); [destruct (reply_exc net _); discriminate|].
  destruct (reply_exc net (LoraDownloaded _));
    [destruct (reply_exc net _); discriminate|].
  injection H as <- <-. cbn [actives disk].
  split; [eauto|]. split.
  { rewrite active_of_activate by exact W.
    now destruct (decide (uid = uid)). }
  split.
  { intros uid' Hne. rewrite active_of_activate by exact W.
    now destruct (decide (uid' = uid)). }
  split; [|now apply activate_wf].
  unfold diffusion.located, world_of. cbn [diffusion.isfile disk].
  apply bool_decide_eq_true.
  change (diffusion.os_path_join (diffusion.loras_dir _) (filename_of_url url))
    with (loras_path (dirname net) (filename_of_url url)).
  rewrite lookup_insert_eq. now eexists.
Qed.


Lemma downloaded_asset_is_active_and_located_witness :
  let f := lit "style.safetensors" in
  (actives_wf (actives store0)
   /\ lora_handler net0 7 [url0] store0 = (store1, Ok (LoraDownloaded f)))
  /\ (exists url rest, [url0] = url :: rest /\ f = filename_of_url url)
  /\ active_of (actives store1) 7 = active_of (actives store0) 7 ++ [f]
  /\ (forall uid', uid' <> 7%Z ->
        active_of (actives store1) uid' = active_of (actives store0) uid')
  /\ diffusion.located (world_of net0 store1 examples.world0) f = true
  /\ actives_wf (actives store1).
Proof.
  intros f.
  assert (H1 : actives_wf (actives store0)) by exact no_actives_wf.
  assert (H2 : lora_handler net0 7 [url0] store0
               = (store1, Ok (LoraDownloaded f)))
    by (vm_compute; reflexivity).
  split; [split; assumption|].
  exact (downloaded_asset_is_active_and_located net0 7 [url0] store0 store1 f
           examples.world0 H1 H2).
Defined.

(** X21. A download that does not succeed activates nothing: the active
    assets change only when the request, its status, the opening of the
    file and the whole stream went through, and then the name derived from
    the URL is appended for the caller and the file holds every chunk.
    The answer does not tell the two apart: when the success reply raises,
    the handler goes on to answer with the failure text, with the asset
    active. In every case the only file the handler can have written is
    its target in the [loras] directory. *)
Theorem failed_download_activates_nothing
    (net : Net) (uid : Z) (args : list str) (st st' : Store)
    (res : result Reply) :
  lora_handler net uid args st = (st', res) ->
  let target := loras_path (dirname net) (filename_of_url (hd [] args)) in
  (actives st' = actives st
   \/ exists url rest response,
        args = url :: rest
        /\ requests_get net url = Ok response
        /\ status_exc response = None
        /\ open_exc net target = None
        /\ stream_exc response = None
        /\ disk st' !! target = Some (concat (chunks response))
        /\ actives st' = activate uid (filename_of_url url) (actives st)
        /\ (res = Ok (LoraDownloaded (filename_of_url url))
            \/ exists e,
                 reply_exc net (LoraDownloaded (filename_of_url url)) = Some e
                 /\ res = reply_text net (LoraFailed e)))
  /\ (forall path, path <> target -> disk st' !! path = disk st !! path).
Proof.
  intros H target. unfold lora_handler in H. subst target.
  destruct args as [|url rest]; [injection H as <- <-; auto|].
  cbn [hd].
  destruct (requests_get net url) as [resp|e] eqn:Hget;
    [|injection H as <- <-; auto].
  destruct (status_exc resp) eqn:Hstatus; [injection H as <- <-; auto|].
  destruct (open_exc net _) eqn:Hopen; [injection H as <- <-; auto|].
  destruct (stream_exc resp) eqn:Hstream.
  { injection H as <- <-. cbn [actives disk].
    split; [now left|]. intros path Hne. now rewrite lookup_insert_ne. }
  destruct (reply_exc net (LoraDownloaded _)) as [e|] eqn:Hreply;
    injection H as <- <-; cbn [actives disk].
  - split; [|intros path Hne; now rewrite lookup_insert_ne].
    right. exists url, rest, resp. rewrite lookup_insert_eq.
    repeat (split; [first [reflexivity | assumption]|]).
    right. exists e. split; [exact Hreply | reflexivity].
  - split; [|intros path Hne; now rewrite lookup_insert_ne].
    right. exists url, rest, resp. rewrite lookup_insert_eq.
    repeat (split; [first [reflexivity | assumption]|]).
    now left.
Qed.

Lemma failed_download_activates_nothing_witness :
  let f := lit "style.safetensors" in
  let target := loras_path (dirname net_reply_fails)
                  (filename_of_url (hd [] [url0])) in
  let res := Ok (LoraFailed (lit "Timed out")) in
  (lora_handler net_reply_fails 7 [url0] store0 = (store1, res)
   /\ active_of (actives store1) 7 = [f])
  /\ (actives store1 = actives store0
      \/ exists url rest response,
           [url0] = url :: rest
           /\ requests_get net_reply_fails url = Ok response
           /\ status_exc response = None
           /\ open_exc net_reply_fails target = None
           /\ stream_exc response = None
           /\ disk store1 !! target = Some (concat (chunks response))
           /\ actives store1
              = activate 7 (filename_of_url url) (actives store0)
           /\ (res = Ok (LoraDownloaded (filename_of_url url))
               \/ exists e,
                    reply_exc net_reply_fails
                      (LoraDownloaded (filename_of_url url)) = Some e
                    /\ res = reply_text net_reply_fails (LoraFailed e)))
  /\ (forall path, path <> target -> disk store1 !! path = disk store0 !! path).
Proof.
  intros f target res.
  assert (H : lora_handler net_reply_fails 7 [url0] store0 = (store1, res))
    by (vm_compute; reflexivity).
  split; [split; [exact H | vm_compute; reflexivity]|].
  exact (failed_download_activates_nothing net_reply_fails 7 [url0] store0
           store1 res H).
Defined.

(** X22. [/clear_loras] reaches only the caller: afterwards the caller has
    no active asset, every other requester's active assets are unchanged,
    and every list object that existed before, such as the one a job
    submitted earlier holds, keeps its content. *)
Theorem clear_loras_reaches_only_the_caller (uid : Z) (a : Actives) :
  actives_wf a ->
  let a' := clear_loras_handler uid a in
  active_of a' uid = []
  /\ (forall uid', uid' <> uid -> active_of a' uid' = active_of a uid')
  /\ (forall r, r < length (lists a) -> content a' r = content a r)
  /\ actives_wf a'.
Proof.
  intros W a'. subst a'. split.
  { rewrite active_of_clear by exact W. now destruct (decide (uid = uid)). }
  split.
  { intros uid' Hne. rewrite active_of_clear by exact W.
    now destruct (decide (uid' = uid)). }
  split; [|now apply clear_wf].
  intros r Hr. unfold content at 1, clear_loras_handler. cbn [lists].
  now apply content_app_old.
Qed.

Lemma clear_loras_reaches_only_the_caller_witness :
  let a := activate 8 (lit "other.safetensors") (actives store1) in
  let a' := clear_loras_handler 7 a in
  actives_wf a
  /\ active_of a 7 = [lit "style.safetensors"]
  /\ active_of a' 7 = []
  /\ (forall uid', uid' <> 7%Z -> active_of a' uid' = active_of a uid')
  /\ (forall r, r < length (lists a) -> content a' r = content a r)
  /\ actives_wf a'.
Proof.
  intros a a'.
  assert (H : actives_wf a)
    by (apply activate_wf, activate_wf; exact no_actives_wf).
  split; [exact H|]. split; [vm_compute; reflexivity|].
  exact (clear_loras_reaches_only_the_caller 7 a H).
Defined.

(** X23. The job holds the requester's list object, not a copy. For a job
    started by [gen_handler]: if the requester had an entry in
    [_user_active_loras], an asset the requester activates after the
    submission is among the names the backend gets when it runs; if the
    requester had none, the job's list stays empty whatever is activated
    later; and [/clear_loras] after the submission takes nothing away from
    the job. *)
Theorem submitted_job_shares_the_active_list
    (uid : Z) (args : list str) (a a1 : Actives) (replies : list Reply)
    (sub : Submission) (f : str) :
  actives_wf a ->
  gen_handler uid args a = (a1, replies, Some sub) ->
  handlers.loras (job_at_dispatch a1 sub) = active_of a uid
  /\ handlers.loras (job_at_dispatch (activate uid f a1) sub)
     = match _user_active_loras a !! uid with
       | Some _ => active_of a uid ++ [f]
       | None => []
       end
  /\ handlers.loras (job_at_dispatch (clear_loras_handler uid a1) sub)
     = active_of a uid.
Proof.
  intros W H. pose proof W as [W1 W2]. unfold gen_handler in H.
  destruct args as [|a0 rest]; [discriminate|].
  pose proof (get_loras_wf uid a W) as Wg.
  unfold get_loras in *. unfold active_of.
  destruct (_user_active_loras a !! uid) as [r|] eqn:E;
    injection H as <- _ <-; cbn [job_at_dispatch handlers.loras sub_loras fst] in *.
  - split; [reflexivity|]. split.
    + rewrite content_activate by exact W.
      destruct (decide (_user_active_loras a !! uid = Some r)); [reflexivity|].
      congruence.
    + unfold content at 1, clear_loras_handler. cbn [lists].
      apply content_app_old. eauto.
  - split; [apply content_app_new|]. split.
    + rewrite content_activate by exact Wg. cbn [_user_active_loras lists].
      rewrite E.
      destruct (decide (None = Some (length (lists a)))); [discriminate|].
      rewrite length_app. cbn.
      destruct (decide (length (lists a) = length (lists a) + 1)); [lia|].
      apply content_app_new.
    + unfold content at 1, clear_loras_handler. cbn [lists].
      rewrite lookup_app_l by (rewrite length_app; cbn; lia).
      apply content_app_new.
Qed.

Lemma submitted_job_shares_the_active_list_witness :
  let a := actives store1 in
  let args := [lit "a"; lit "cat"] in
  let sub := {| sub_user := 7; sub_prompt := lit "a cat"; sub_loras := 0 |} in
  let f := lit "more.safetensors" in
  (actives_wf a /\ gen_handler 7 args a = (a, [], Some sub))
  /\ handlers.loras (job_at_dispatch a sub) = active_of a 7
  /\ handlers.loras (job_at_dispatch (activate 7 f a) sub)
     = match _user_active_loras a !! 7%Z with
       | Some _ => active_of a 7 ++ [f]
       | None => []
       end
  /\ handlers.loras (job_at_dispatch (clear_loras_handler 7 a) sub)
     = active_of a 7.
Proof.
  intros a args sub f.
  assert (H1 : actives_wf a) by (apply activate_wf; exact no_actives_wf).
  assert (H2 : gen_handler 7 args a = (a, [], Some sub))
    by (vm_compute; reflexivity).
  split; [split; assumption|].
  exact (submitted_job_shares_the_active_list 7 args a a [] sub f H1 H2).
Defined.



End ActivesFacts.
